(** * HRRR model viewer: naming scheme, proxy relay and playback

    A shallow embedding of the two source files of the repository:

    - [src/App.tsx]: the client.  Its helpers ([isExtendedCycle],
      [listHoursForCycle], [zFmt], [buildMagFilename], [buildMagDirectUrl],
      [buildMagProxyUrl]) are pure functions; the component [App] is a state
      machine over the values held by its [useState]/[useRef] hooks, driven
      by user events, timer ticks and the runs of its [useEffect].
    - the Netlify function (called [mag.js] by the comment at the top of
      [App.tsx]): the [handler] that rebuilds the remote URL from the query
      parameters, fetches it and relays the answer.

    Conventions of the embedding.

    - A JavaScript number that the program uses as an hour is an integer
      ([utcHourNow], [parseInt], the elements of [listHoursForCycle],
      [Math.max(0, f - 1)]); it is a [Z].  [String(n)] is modelled as the
      full decimal numeral, which is what JavaScript writes for the safe
      integers (magnitude at most 2^53 - 1); a statement about the digits of
      a numeral is made for such numbers only.
    - A JavaScript string is a [string], a sequence of 8-bit characters.
      Case conversion acts on the letters [A]-[Z] and white space is the
      ASCII white space, which is what JavaScript does on strings of ASCII
      characters; a statement that depends on how a character outside ASCII
      is lowercased, trimmed or encoded is made for ASCII strings only.
    - A value that may be [undefined] or [null] is an [option].
    - A JavaScript object used as a dictionary (the query parameters of the
      event) is a [gmap string string].
    - An operation that may throw returns a [Completion].
    - The body of an HTTP answer is a list of bytes, what [arrayBuffer()]
      gives; its text, what [text()] gives after the platform decoded the
      bytes, is a datum of its own of the answer: the decoding itself is not
      modelled. *)

From Stdlib Require Import ZArith String Ascii List Lia ZifyBool DecimalString.
From Stdlib.Strings Require Byte.
From Stdlib Require DecimalPos.
From stdpp Require Import gmap strings list.

Open Scope Z_scope.

(** ** The JavaScript built-ins used by the program *)

Module JS.

(** [String(n)] for an integer-valued number: the decimal digits, with a
    leading [-] for a negative number.  (JavaScript writes all the digits of
    a safe integer; from 10^21 it switches to the exponent form.) *)
Definition String_num (n : Z) : string :=
  NilZero.string_of_int (Z.to_int n).

(** The first [n] characters of [rest] followed by endless copies of
    [filler]: the "repeated concatenation of the filler truncated to
    length n" of [String.prototype.padStart]. *)
Fixpoint fill (n : nat) (rest filler : string) : string :=
  match n with
  | O => ""
  | S n' =>
      match rest with
      | String c r => String c (fill n' r filler)
      | EmptyString =>
          match filler with
          | String c r => String c (fill n' r filler)
          | EmptyString => ""
          end
      end
  end.

(** [s.padStart(maxLength, filler)]. *)
Definition padStart (maxLength : nat) (filler : string) (s : string) : string :=
  if (maxLength <=? String.length s)%nat then s
  else if String.eqb filler "" then s
  else fill (maxLength - String.length s) filler filler +:+ s.

Definition lower_ascii (c : ascii) : ascii :=
  let n := N_of_ascii c in
  if ((65 <=? n) && (n <=? 90))%N then ascii_of_N (n + 32) else c.

(** [s.toLowerCase()], as it acts on a string of ASCII characters. *)
Fixpoint toLowerCase (s : string) : string :=
  match s with
  | EmptyString => EmptyString
  | String c r => String (lower_ascii c) (toLowerCase r)
  end.

(** [a || d] where [a] is a string or [undefined]: the empty string and
    [undefined] are the falsy values. *)
Definition or_else (a : option string) (d : string) : string :=
  match a with
  | Some s => if String.eqb s "" then d else s
  | None => d
  end.

(** [list.indexOf(x)] on an array of integers: the first index holding
    [x], or [-1]. *)
Fixpoint indexOf_from (i : Z) (l : list Z) (x : Z) : Z :=
  match l with
  | [] => -1
  | y :: l' => if y =? x then i else indexOf_from (i + 1) l' x
  end.

Definition indexOf (l : list Z) (x : Z) : Z := indexOf_from 0 l x.

(** [list.includes(x)]. *)
Definition includes (l : list Z) (x : Z) : bool := existsb (Z.eqb x) l.

(** [list[i]]: [undefined] outside the array. *)
Definition at_index (l : list Z) (i : Z) : option Z :=
  if i <? 0 then None else l !! Z.to_nat i.

(** [Array.from({ length: n }, (_, i) => i)]. *)
Definition array_from_indices (n : Z) : list Z :=
  map Z.of_nat (seq 0 (Z.to_nat n)).

(** *** [URLSearchParams]: the [application/x-www-form-urlencoded] format *)

Definition hex_digit (n : N) : ascii :=
  if (n <? 10)%N then ascii_of_N (48 + n) else ascii_of_N (55 + n).

Definition hex_value (c : ascii) : option N :=
  let n := N_of_ascii c in
  if ((48 <=? n) && (n <=? 57))%N then Some (n - 48)%N
  else if ((65 <=? n) && (n <=? 70))%N then Some (n - 55)%N
  else if ((97 <=? n) && (n <=? 102))%N then Some (n - 87)%N
  else None.

(** The characters the serializer leaves as they are: [*], [-], [.], [_],
    the digits and the letters. *)
Definition urlencoded_safe (c : ascii) : bool :=
  let n := N_of_ascii c in
  ((n =? 42) || (n =? 45) || (n =? 46) || (n =? 95)
   || ((48 <=? n) && (n <=? 57))
   || ((65 <=? n) && (n <=? 90))
   || ((97 <=? n) && (n <=? 122)))%N.

Definition urlencode_char (c : ascii) : string :=
  if Ascii.eqb c " " then "+"
  else if urlencoded_safe c then String c ""
  else
    let n := N_of_ascii c in
    String "%" (String (hex_digit (n / 16)) (String (hex_digit (n mod 16)) "")).

Fixpoint urlencode (s : string) : string :=
  match s with
  | EmptyString => EmptyString
  | String c r => urlencode_char c +:+ urlencode r
  end.

(** [new URLSearchParams(record)] keeps the entries in the order of the
    record; [toString()] writes [name=value] joined by [&]. *)
Definition URLSearchParams := list (string * string).

Definition serialize_pair (kv : string * string) : string :=
  urlencode (fst kv) +:+ "=" +:+ urlencode (snd kv).

Definition URLSearchParams_toString (qs : URLSearchParams) : string :=
  String.concat "&" (map serialize_pair qs).

(** The reading direction of the same format, as the platform applies it
    to the query string of a request before it calls the function. *)
Fixpoint split_on (sep : ascii) (s : string) : list string :=
  match s with
  | EmptyString => [EmptyString]
  | String c r =>
      if Ascii.eqb c sep then EmptyString :: split_on sep r
      else
        match split_on sep r with
        | h :: t => String c h :: t
        | [] => [String c EmptyString]
        end
  end.

(** [s] cut at the first [sep]: what precedes it and what follows it. *)
Fixpoint cut_at (sep : ascii) (s : string) : option (string * string) :=
  match s with
  | EmptyString => None
  | String c r =>
      if Ascii.eqb c sep then Some (EmptyString, r)
      else
        match cut_at sep r with
        | Some (a, b) => Some (String c a, b)
        | None => None
        end
  end.

Fixpoint plus_to_space (s : string) : string :=
  match s with
  | EmptyString => EmptyString
  | String c r => String (if Ascii.eqb c "+" then " "%char else c) (plus_to_space r)
  end.

Fixpoint percent_decode (s : string) : string :=
  match s with
  | EmptyString => EmptyString
  | String c r =>
      if Ascii.eqb c "%" then
        match r with
        | String h1 (String h2 r') =>
            match hex_value h1, hex_value h2 with
            | Some a, Some b =>
                String (ascii_of_N (16 * a + b)) (percent_decode r')
            | _, _ => String c (percent_decode r)
            end
        | _ => String c (percent_decode r)
        end
      else String c (percent_decode r)
  end.

Definition urldecode (s : string) : string := percent_decode (plus_to_space s).

Definition parse_pair (piece : string) : string * string :=
  match cut_at "=" piece with
  | Some (k, v) => (urldecode k, urldecode v)
  | None => (urldecode piece, EmptyString)
  end.

Definition parse_urlencoded (query : string) : list (string * string) :=
  map parse_pair
      (List.filter (fun piece => negb (String.eqb piece "")) (split_on "&" query)).

(** The dictionary of the parsed pairs; a later pair of the same name
    replaces an earlier one. *)
Definition to_dictionary (pairs : list (string * string)) : gmap string string :=
  fold_left (fun m kv => <[fst kv := snd kv]> m) pairs ∅.

(** *** [Buffer.toString("base64")] *)

Definition sextet : Type := bool * bool * bool * bool * bool * bool.

(** The value of a sextet, most significant bit first. *)
Definition sextet_value (s : sextet) : N :=
  let '(b5, b4, b3, b2, b1, b0) := s in
  (32 * N.b2n b5 + 16 * N.b2n b4 + 8 * N.b2n b3
   + 4 * N.b2n b2 + 2 * N.b2n b1 + N.b2n b0)%N.

Definition base64_char (s : sextet) : ascii :=
  let n := sextet_value s in
  if (n <? 26)%N then ascii_of_N (65 + n)
  else if (n <? 52)%N then ascii_of_N (97 + (n - 26))
  else if (n <? 62)%N then ascii_of_N (48 + (n - 52))
  else if (n =? 62)%N then "+"%char
  else "/"%char.

(** The bits of a byte, least significant first, as [Byte.to_bits] gives
    them. *)
Definition bits (b : Byte.byte) : bool * bool * bool * bool * bool * bool * bool * bool :=
  let '(b0, (b1, (b2, (b3, (b4, (b5, (b6, b7))))))) := Byte.to_bits b in
  (b0, b1, b2, b3, b4, b5, b6, b7).

Fixpoint base64_encode (l : list Byte.byte) : string :=
  match l with
  | [] => EmptyString
  | [x] =>
      let '(x0, x1, x2, x3, x4, x5, x6, x7) := bits x in
      String (base64_char (x7, x6, x5, x4, x3, x2))
        (String (base64_char (x1, x0, false, false, false, false)) "==")
  | [x; y] =>
      let '(x0, x1, x2, x3, x4, x5, x6, x7) := bits x in
      let '(y0, y1, y2, y3, y4, y5, y6, y7) := bits y in
      String (base64_char (x7, x6, x5, x4, x3, x2))
        (String (base64_char (x1, x0, y7, y6, y5, y4))
           (String (base64_char (y3, y2, y1, y0, false, false)) "="))
  | x :: y :: z :: rest =>
      let '(x0, x1, x2, x3, x4, x5, x6, x7) := bits x in
      let '(y0, y1, y2, y3, y4, y5, y6, y7) := bits y in
      let '(z0, z1, z2, z3, z4, z5, z6, z7) := bits z in
      String (base64_char (x7, x6, x5, x4, x3, x2))
        (String (base64_char (x1, x0, y7, y6, y5, y4))
           (String (base64_char (y3, y2, y1, y0, z7, z6))
              (String (base64_char (z5, z4, z3, z2, z1, z0))
                 (base64_encode rest))))
  end.

(** *** Errors and completions *)

(** A thrown [Error] object: its [name] and its [message]. *)
Record Error := { name : string; message : string }.

(** [String(err)], that is [Error.prototype.toString]. *)
Definition String_err (e : Error) : string :=
  if String.eqb (name e) "" then message e
  else if String.eqb (message e) "" then name e
  else name e +:+ ": " +:+ message e.

Inductive Completion (A : Type) : Type :=
| Normal (a : A)
| Throw (e : Error).
Arguments Normal {A} a.
Arguments Throw {A} e.

End JS.

(** The sequencing of operations that may throw, as inside a [try] block. *)
Definition bindC {A B : Type} (c : JS.Completion A) (k : A -> JS.Completion B)
  : JS.Completion B :=
  match c with
  | JS.Normal a => k a
  | JS.Throw e => JS.Throw e
  end.

Notation "'await' x <- c ; k" := (bindC c (fun x => k))
  (at level 10, x name, c at level 100, k at level 200).

(** ** The client: [src/App.tsx] *)

Module App.

Definition AREA : string := "conus".
Definition PROXY_BASE : string := "/.netlify/functions/mag".
(** [const MAG_SIZE_SUFFIX = ""], "e.g. _l or _s if needed". *)
Definition MAG_SIZE_SUFFIX : string := "".

Record ParamItem := { key : string; label : string }.

Definition PARAM_GROUPS : list (string * list ParamItem) :=
  [ ("Aviation (priority)",
      [ {| key := "ceiling"; label := "Ceiling (AGL)" |};
        {| key := "vis"; label := "Visibility" |} ]);
    ("Precipitation",
      [ {| key := "sim_radar_comp"; label := "Simulated Composite Reflectivity" |};
        {| key := "precip_ptot"; label := "Total Precipitation" |};
        {| key := "snow_total"; label := "Snow Total" |} ]);
    ("Surface / Layer",
      [ {| key := "2m_temp_10m_wnd"; label := "2 m Temp / 10 m Wind" |};
        {| key := "2m_dewp_10m_wnd"; label := "2 m Dewpoint / 10 m Wind" |};
        {| key := "10m_wnd"; label := "10 m Wind" |} ]);
    ("Upper Air",
      [ {| key := "700_rh_ht"; label := "700 mb RH/Height" |};
        {| key := "850_temp_ht"; label := "850 mb Temp/Height" |};
        {| key := "300_wnd"; label := "300 mb Wind" |} ]) ].

(** The keys a click on the parameter menu can select. *)
Definition catalog_keys : list string :=
  concat (map (fun g => map key (snd g)) PARAM_GROUPS).

Definition isExtendedCycle (hour : Z) : bool :=
  JS.includes [0; 6; 12; 18] hour.

Definition listHoursForCycle (hour : Z) : list Z :=
  let max := if isExtendedCycle hour then 48 else 18 in
  JS.array_from_indices (max + 1).

Definition zFmt (h : Z) : string :=
  JS.padStart 2 "0" (JS.String_num h) +:+ "Z".

(** The argument object of the URL builders; [model] and [area] may be
    left out. *)
Record Args := {
  model : option string;
  area : option string;
  cycleHour : Z;
  fhr : Z;
  param : string
}.

(** The two URL builders read the module constant [MAG_SIZE_SUFFIX].  They
    are written here over an arbitrary value of that constant, so that a
    reconfigured suffix can be talked about; [buildMagFilename] and
    [buildMagDirectUrl] below are the program as shipped. *)
Section Configured.
Variable sizeSuffix : string.

Definition buildMagFilename_with (model area : string) (fhr : Z) (param : string)
  : string :=
  let fh := JS.padStart 3 "0" (JS.String_num fhr) +:+ "00" in
  model +:+ "_" +:+ area +:+ "_" +:+ fh +:+ "_" +:+ param +:+ sizeSuffix +:+ ".gif".

Definition buildMagDirectUrl_with (args : Args) : string :=
  let model := default "hrrr" (model args) in
  let area := default AREA (area args) in
  let file := buildMagFilename_with model area (fhr args) (param args) in
  let cyc := JS.padStart 2 "0" (JS.String_num (cycleHour args)) in
  "https://mag.ncep.noaa.gov/data/" +:+ model +:+ cyc +:+ "/" +:+ file.
End Configured.

Definition buildMagFilename : string -> string -> Z -> string -> string :=
  buildMagFilename_with MAG_SIZE_SUFFIX.

Definition buildMagDirectUrl : Args -> string :=
  buildMagDirectUrl_with MAG_SIZE_SUFFIX.

Definition proxyQuery (args : Args) : JS.URLSearchParams :=
  let model := default "hrrr" (model args) in
  let area := default AREA (area args) in
  [ ("model", model);
    ("area", area);
    ("cycle", JS.padStart 2 "0" (JS.String_num (cycleHour args)));
    ("fhr", JS.padStart 3 "0" (JS.String_num (fhr args)));
    ("param", param args) ].

Definition buildMagProxyUrl (args : Args) : string :=
  let qs := proxyQuery args in
  PROXY_BASE +:+ "?" +:+ JS.URLSearchParams_toString qs.

(** The hour updaters handed to [setFhr].  The one of the timer tick
    (inside the effect) and the one of "Next hour" are the same three
    lines, written twice in the source; [undefined] is [None]. *)
Definition tickUpdater (cycleHour : Z) (prev : Z) : option Z :=
  let list := listHoursForCycle cycleHour in
  let i := JS.indexOf list prev in
  if (i <? 0) || (i =? Z.of_nat (length list) - 1)
  then JS.at_index list 0
  else JS.at_index list (i + 1).

Definition nextUpdater (cycleHour : Z) (f : Z) : option Z :=
  let list := listHoursForCycle cycleHour in
  let i := JS.indexOf list f in
  if (i <? 0) || (i =? Z.of_nat (length list) - 1)
  then JS.at_index list 0
  else JS.at_index list (i + 1).

(** "Prev hour". *)
Definition prevUpdater (f : Z) : Z := Z.max 0 (f - 1).

End App.

(** ** The proxy relay: the Netlify function *)

Module Mag.

Record Event := { queryStringParameters : option (gmap string string) }.

(** The six constants computed at the top of the [try] block. *)
Record Fields := {
  model : string;
  area : string;
  cycle : string;
  fhr : string;
  param : string;
  size : string
}.

Definition fields (event : Event) : Fields :=
  let p := default ∅ (queryStringParameters event) in
  {| model := JS.toLowerCase (JS.or_else (p !! "model") "hrrr");
     area := JS.toLowerCase (JS.or_else (p !! "area") "conus");
     cycle := JS.padStart 2 "0" (JS.or_else (p !! "cycle") "");
     fhr := JS.padStart 3 "0" (JS.or_else (p !! "fhr") "0");
     param := JS.toLowerCase (JS.or_else (p !! "param") "ceiling");
     size := JS.or_else (p !! "size") "" |}.

Definition filename (f : Fields) : string :=
  model f +:+ "_" +:+ area f +:+ "_" +:+ fhr f +:+ "00_" +:+ param f
    +:+ size f +:+ ".gif".

Definition remote (event : Event) : string :=
  let f := fields event in
  "https://mag.ncep.noaa.gov/data/" +:+ model f +:+ cycle f +:+ "/" +:+ filename f.

Definition requestHeaders : list (string * string) :=
  [ ("Referer", "https://mag.ncep.noaa.gov/");
    ("User-Agent", "Mozilla/5.0 NetlifyFunction");
    ("Accept", "image/avif,image/webp,image/apng,image/*,*/*;q=0.8") ].

(** What [fetch] resolves to: the status of the answer and its body, as
    bytes ([payload], read by [arrayBuffer()]) and as text ([bodyText], read
    by [text()]); either reading may fail. *)
Record Response := {
  status : Z;
  payload : JS.Completion (list Byte.byte);
  bodyText : JS.Completion string
}.

Definition ok (resp : Response) : bool :=
  (200 <=? status resp) && (status resp <=? 299).

(** [resp.text()]: the body as decoded by the platform. *)
Definition text (resp : Response) : JS.Completion string :=
  bodyText resp.

Definition arrayBuffer (resp : Response) : JS.Completion (list Byte.byte) :=
  payload resp.

(** The outside world: the answer of [fetch] to a URL and request headers. *)
Definition Fetch : Type := string -> list (string * string) -> JS.Completion Response.

Record Result := {
  statusCode : Z;
  headers : option (list (string * string));
  body : string;
  isBase64Encoded : option bool
}.

Definition handler (fetch : Fetch) (event : Event) : Result :=
  let attempt : JS.Completion Result :=
    await resp <- fetch (remote event) requestHeaders;
    if negb (ok resp) then
      await text <- text resp;
      JS.Normal {| statusCode := status resp; headers := None;
                   body := text; isBase64Encoded := None |}
    else
      await buf <- arrayBuffer resp;
      JS.Normal {| statusCode := 200;
                   headers := Some [ ("Content-Type", "image/gif");
                                     ("Cache-Control", "public, max-age=300");
                                     ("Access-Control-Allow-Origin", "*") ];
                   body := JS.base64_encode buf;
                   isBase64Encoded := Some true |}
  in
  match attempt with
  | JS.Normal r => r
  | JS.Throw err =>
      {| statusCode := 500; headers := None;
         body := JS.String_err err; isBase64Encoded := None |}
  end.

(** The event the platform builds from the URL of a request: the query
    string, the part after the first [?], parsed into a dictionary.  This is
    the work of the hosting platform, not code of the repository; it is
    written after the parser of the [application/x-www-form-urlencoded]
    format. *)
Definition event_of_url (url : string) : Event :=
  match JS.cut_at "?" url with
  | Some (_, query) =>
      {| queryStringParameters := Some (JS.to_dictionary (JS.parse_urlencoded query)) |}
  | None => {| queryStringParameters := None |}
  end.

End Mag.

(** ** The component [App] as a state machine *)

Module Playback.

(** A repeating timer of the window: its handle, the [cycleHour] its
    callback closed over, and its period. *)
Record Timer := {
  handle : Z;
  closedCycleHour : Z;
  delay : Z
}.

(** The dependency array [[playing, speedMs, cycleHour]] of the effect. *)
Record Deps := {
  dep_playing : bool;
  dep_speedMs : Z;
  dep_cycleHour : Z
}.

Definition Deps_eqb (a b : Deps) : bool :=
  Bool.eqb (dep_playing a) (dep_playing b)
  && (dep_speedMs a =? dep_speedMs b)
  && (dep_cycleHour a =? dep_cycleHour b).

Record State := {
  (* the [useState] hooks *)
  cycleHour : Z;
  activeParam : string;
  fhr : Z;
  playing : bool;
  speedMs : Z;
  paramFilter : string;
  (* [timerRef.current] *)
  timerRef : option Z;
  (* the repeating timers of the window that are active *)
  intervals : list Timer;
  (* the dependencies the effect last ran with, if it has run *)
  effectDeps : option Deps;
  (* whether that run returned the cleanup function *)
  effectCleanup : bool;
  mounted : bool
}.

(** The state of the first render; [utcHour] is [utcHourNow()]. *)
Definition initial (utcHour : Z) : State :=
  {| cycleHour := utcHour; activeParam := "ceiling"; fhr := 3;
     playing := false; speedMs := 600; paramFilter := "";
     timerRef := None; intervals := []; effectDeps := None;
     effectCleanup := false; mounted := true |}.

Definition setCycleHour (v : Z) (s : State) : State :=
  {| cycleHour := v; activeParam := activeParam s; fhr := fhr s;
     playing := playing s; speedMs := speedMs s; paramFilter := paramFilter s;
     timerRef := timerRef s; intervals := intervals s;
     effectDeps := effectDeps s; effectCleanup := effectCleanup s;
     mounted := mounted s |}.

Definition setActiveParam (v : string) (s : State) : State :=
  {| cycleHour := cycleHour s; activeParam := v; fhr := fhr s;
     playing := playing s; speedMs := speedMs s; paramFilter := paramFilter s;
     timerRef := timerRef s; intervals := intervals s;
     effectDeps := effectDeps s; effectCleanup := effectCleanup s;
     mounted := mounted s |}.

Definition setFhr (v : Z) (s : State) : State :=
  {| cycleHour := cycleHour s; activeParam := activeParam s; fhr := v;
     playing := playing s; speedMs := speedMs s; paramFilter := paramFilter s;
     timerRef := timerRef s; intervals := intervals s;
     effectDeps := effectDeps s; effectCleanup := effectCleanup s;
     mounted := mounted s |}.

Definition setPlaying (v : bool) (s : State) : State :=
  {| cycleHour := cycleHour s; activeParam := activeParam s; fhr := fhr s;
     playing := v; speedMs := speedMs s; paramFilter := paramFilter s;
     timerRef := timerRef s; intervals := intervals s;
     effectDeps := effectDeps s; effectCleanup := effectCleanup s;
     mounted := mounted s |}.

Definition setSpeedMs (v : Z) (s : State) : State :=
  {| cycleHour := cycleHour s; activeParam := activeParam s; fhr := fhr s;
     playing := playing s; speedMs := v; paramFilter := paramFilter s;
     timerRef := timerRef s; intervals := intervals s;
     effectDeps := effectDeps s; effectCleanup := effectCleanup s;
     mounted := mounted s |}.

Definition setParamFilter (v : string) (s : State) : State :=
  {| cycleHour := cycleHour s; activeParam := activeParam s; fhr := fhr s;
     playing := playing s; speedMs := speedMs s; paramFilter := v;
     timerRef := timerRef s; intervals := intervals s;
     effectDeps := effectDeps s; effectCleanup := effectCleanup s;
     mounted := mounted s |}.

(** The part of the state outside the hooks of [useState]. *)
Definition setRuntime (ref : option Z) (timers : list Timer)
    (deps : option Deps) (cleanup : bool) (alive : bool) (s : State) : State :=
  {| cycleHour := cycleHour s; activeParam := activeParam s; fhr := fhr s;
     playing := playing s; speedMs := speedMs s; paramFilter := paramFilter s;
     timerRef := ref; intervals := timers;
     effectDeps := deps; effectCleanup := cleanup;
     mounted := alive |}.

Definition currentDeps (s : State) : Deps :=
  {| dep_playing := playing s; dep_speedMs := speedMs s;
     dep_cycleHour := cycleHour s |}.

(** [window.clearInterval(id)]. *)
Definition clearInterval (id : Z) (timers : list Timer) : list Timer :=
  List.filter (fun t => negb (handle t =? id)) timers.

(** The cleanup function the effect returns:
    [if (timerRef.current) window.clearInterval(timerRef.current)];
    it exists only if the last run of the effect returned it. *)
Definition runCleanup (s : State) : State :=
  if effectCleanup s then
    match timerRef s with
    | Some id =>
        if id =? 0 then s
        else setRuntime (timerRef s) (clearInterval id (intervals s))
               (effectDeps s) (effectCleanup s) (mounted s) s
    | None => s
    end
  else s.

(** The body of the effect; [fresh] is the handle [window.setInterval]
    returns, a positive integer. *)
Definition runEffect (fresh : positive) (s : State) : State :=
  if negb (playing s) then
    setRuntime (timerRef s) (intervals s) (Some (currentDeps s)) false (mounted s) s
  else
    let timer := {| handle := Z.pos fresh; closedCycleHour := cycleHour s;
                    delay := speedMs s |} in
    setRuntime (Some (Z.pos fresh)) (intervals s ++ [timer])
      (Some (currentDeps s)) true (mounted s) s.

Inductive Event :=
| Commit (fresh : positive)  (* React runs the effects of the last render *)
| TogglePlay                 (* setPlaying((p) => !p) *)
| SelectCycle (h : Z)        (* setCycleHour(parseInt(e.target.value, 10)) *)
| ChangeSpeed (ms : Z)       (* setSpeedMs(ms) *)
| SelectParam (k : string)   (* setActiveParam(it.key) *)
| TypeFilter (q : string)    (* setParamFilter(e.target.value) *)
| SelectHour (h : Z)         (* setFhr(h) *)
| PrevHour
| NextHour
| Tick (id : Z)              (* the timer of handle [id] fires *)
| Unmount.

(** One event.  [None]: an updater returned [undefined], so that [fhr]
    is no number any more. *)
Definition step (e : Event) (s : State) : option State :=
  match e with
  | Tick id =>
      match List.find (fun t => handle t =? id) (intervals s) with
      | Some t =>
          if mounted s then
            f ← App.tickUpdater (closedCycleHour t) (fhr s); Some (setFhr f s)
          else Some s
      | None => Some s
      end
  | _ =>
      if negb (mounted s) then Some s
      else
        match e with
        | Commit fresh =>
            match effectDeps s with
            | Some d =>
                if Deps_eqb d (currentDeps s) then Some s
                else Some (runEffect fresh (runCleanup s))
            | None => Some (runEffect fresh (runCleanup s))
            end
        | TogglePlay => Some (setPlaying (negb (playing s)) s)
        | SelectCycle h => Some (setCycleHour h s)
        | ChangeSpeed ms => Some (setSpeedMs ms s)
        | SelectParam k => Some (setActiveParam k s)
        | TypeFilter q => Some (setParamFilter q s)
        | SelectHour h => Some (setFhr h s)
        | PrevHour => Some (setFhr (App.prevUpdater (fhr s)) s)
        | NextHour => f ← App.nextUpdater (cycleHour s) (fhr s); Some (setFhr f s)
        | Tick _ => Some s
        | Unmount =>
            let s' := runCleanup s in
            Some (setRuntime (timerRef s') (intervals s') None false false s')
        end
  end.

Fixpoint run (events : list Event) (s : State) : option State :=
  match events with
  | [] => Some s
  | e :: rest => s' ← step e s; run rest s'
  end.

End Playback.

(** ** Reference definitions the statements are phrased with *)

Module Spec.

Definition digit_char (d : Z) : ascii := ascii_of_N (48 + Z.to_N d).

(** [n] written with exactly two, respectively three, decimal digits. *)
Definition two_digits (n : Z) : string :=
  String (digit_char (n / 10)) (String (digit_char (n mod 10)) "").

Definition three_digits (n : Z) : string :=
  String (digit_char (n / 100)) (two_digits (n mod 100)).

Fixpoint zeros (n : nat) : string :=
  match n with
  | O => ""
  | S n' => String "0" (zeros n')
  end.

(** The decimal numeral of [n] with zeros in front of it until it is
    [width] characters long. *)
Definition zero_padded (width : nat) (n : Z) : string :=
  zeros (width - String.length (JS.String_num n)) +:+ JS.String_num n.

Definition is_upper (c : ascii) : bool :=
  let n := N_of_ascii c in ((65 <=? n) && (n <=? 90))%N.

(** No upper-case letter occurs in [s]. *)
Fixpoint all_lowercase (s : string) : bool :=
  match s with
  | EmptyString => true
  | String c r => negb (is_upper c) && all_lowercase r
  end.

(** [c] does not occur in [s]. *)
Fixpoint free_of (c : ascii) (s : string) : bool :=
  match s with
  | EmptyString => true
  | String c' r => negb (Ascii.eqb c' c) && free_of c r
  end.

Definition nonempty (s : string) : bool := negb (String.eqb s "").

(** The integers [start], [start + 1], ... ([len] of them). *)
Fixpoint consecutive (start : Z) (len : nat) : list Z :=
  match len with
  | O => []
  | S len' => start :: consecutive (start + 1) len'
  end.

(** The largest forecast hour of the run of [cycleHour]. *)
Definition max_hour (cycleHour : Z) : Z :=
  if bool_decide (cycleHour = 0 ∨ cycleHour = 6 ∨ cycleHour = 12 ∨ cycleHour = 18)
  then 48 else 18.

(** The query parameter [k] of a request, [d] if it is missing or empty. *)
Definition parameter (ev : Mag.Event) (k d : string) : string :=
  match Mag.queryStringParameters ev with
  | Some p =>
      match p !! k with
      | Some v => if decide (v = "") then d else v
      | None => d
      end
  | None => d
  end.

(** *** Base64 decoding (RFC 4648) *)

Definition sextet_of_N (n : N) : JS.sextet :=
  (N.testbit n 5, N.testbit n 4, N.testbit n 3,
   N.testbit n 2, N.testbit n 1, N.testbit n 0).

Definition base64_value (c : ascii) : option JS.sextet :=
  let n := N_of_ascii c in
  if ((65 <=? n) && (n <=? 90))%N then Some (sextet_of_N (n - 65))
  else if ((97 <=? n) && (n <=? 122))%N then Some (sextet_of_N (n - 71))
  else if ((48 <=? n) && (n <=? 57))%N then Some (sextet_of_N (n + 4))
  else if (n =? 43)%N then Some (sextet_of_N 62)
  else if (n =? 47)%N then Some (sextet_of_N 63)
  else None.

Definition byte_of (b7 b6 b5 b4 b3 b2 b1 b0 : bool) : Byte.byte :=
  Byte.of_bits (b0, (b1, (b2, (b3, (b4, (b5, (b6, b7))))))).

Fixpoint base64_decode (s : string) : option (list Byte.byte) :=
  match s with
  | EmptyString => Some []
  | String c1 (String c2 (String c3 (String c4 rest))) =>
      match base64_value c1, base64_value c2 with
      | Some (a5, a4, a3, a2, a1, a0), Some (b5, b4, b3, b2, b1, b0) =>
          let x := byte_of a5 a4 a3 a2 a1 a0 b5 b4 in
          if Ascii.eqb c4 "=" then
            if negb (String.eqb rest "") then None
            else if Ascii.eqb c3 "=" then Some [x]
            else
              match base64_value c3 with
              | Some (c5, c4', c3', c2', _, _) =>
                  Some [x; byte_of b3 b2 b1 b0 c5 c4' c3' c2']
              | None => None
              end
          else
            match base64_value c3, base64_value c4, base64_decode rest with
            | Some (c5, c4', c3', c2', c1', c0'),
              Some (d5, d4, d3, d2, d1, d0), Some tail =>
                Some (x :: byte_of b3 b2 b1 b0 c5 c4' c3' c2'
                        :: byte_of c1' c0' d5 d4 d3 d2 d1 d0 :: tail)
            | _, _, _ => None
            end
      | _, _ => None
      end
  | _ => None
  end.

(** *** The three shapes of an answer of the relay *)

Definition success_headers : list (string * string) :=
  [ ("Content-Type", "image/gif");
    ("Cache-Control", "public, max-age=300");
    ("Access-Control-Allow-Origin", "*") ].

(** [Shape upstream r]: [r] is the answer prescribed for the outcome
    [upstream] of the fetch. *)
Inductive Shape : JS.Completion Mag.Response -> Mag.Result -> Prop :=
| Shape_success (resp : Mag.Response) (bytes : list Byte.byte) (r : Mag.Result) :
    200 <= Mag.status resp <= 299 ->
    Mag.payload resp = JS.Normal bytes ->
    Mag.statusCode r = 200 ->
    Mag.headers r = Some success_headers ->
    base64_decode (Mag.body r) = Some bytes ->
    Mag.isBase64Encoded r = Some true ->
    Shape (JS.Normal resp) r
| Shape_upstream_error (resp : Mag.Response) (txt : string) :
    ~ (200 <= Mag.status resp <= 299) ->
    Mag.bodyText resp = JS.Normal txt ->
    Shape (JS.Normal resp)
      {| Mag.statusCode := Mag.status resp; Mag.headers := None;
         Mag.body := txt; Mag.isBase64Encoded := None |}
| Shape_fetch_failure (err : JS.Error) :
    Shape (JS.Throw err)
      {| Mag.statusCode := 500; Mag.headers := None;
         Mag.body := JS.String_err err; Mag.isBase64Encoded := None |}
| Shape_read_failure (resp : Mag.Response) (err : JS.Error) :
    (200 <= Mag.status resp <= 299 /\ Mag.payload resp = JS.Throw err)
    \/ (~ (200 <= Mag.status resp <= 299) /\ Mag.bodyText resp = JS.Throw err) ->
    Shape (JS.Normal resp)
      {| Mag.statusCode := 500; Mag.headers := None;
         Mag.body := JS.String_err err; Mag.isBase64Encoded := None |}.

(** *** The timer discipline of the component *)

(** The timer the effect sets up in state [s] when [setInterval] returns
    the handle [fresh]. *)
Definition timer_of (fresh : positive) (s : Playback.State) : Playback.Timer :=
  {| Playback.handle := Z.pos fresh;
     Playback.closedCycleHour := Playback.cycleHour s;
     Playback.delay := Playback.speedMs s |}.

(** Whether a commit in state [s] runs the effect again. *)
Definition effect_due (s : Playback.State) : bool :=
  Playback.mounted s
  && match Playback.effectDeps s with
     | Some d => negb (Playback.Deps_eqb d (Playback.currentDeps s))
     | None => true
     end.

(** Either the last run of the effect returned its cleanup, and then the
    one active timer is the one that run set up, [timerRef] holds its handle
    and the run saw [playing]; or it did not, and no timer is active. *)
Definition timer_invariant (s : Playback.State) : Prop :=
  if Playback.effectCleanup s then
    exists t d,
      Playback.intervals s = [t]
      /\ Playback.timerRef s = Some (Playback.handle t)
      /\ Playback.handle t <> 0
      /\ Playback.effectDeps s = Some d
      /\ Playback.dep_playing d = true
      /\ Playback.closedCycleHour t = Playback.dep_cycleHour d
      /\ Playback.delay t = Playback.dep_speedMs d
      /\ Playback.mounted s = true
  else
    Playback.intervals s = []
    /\ match Playback.effectDeps s with
       | Some d => Playback.dep_playing d = false
       | None => True
       end.

End Spec.

(** ** More of the built-ins: white space, substrings, [parseInt] *)

Module Text.

(** The white space of JavaScript among the ASCII characters: tab, line
    feed, vertical tab, form feed, carriage return and space. *)
Definition is_space (c : ascii) : bool :=
  let n := N_of_ascii c in
  (((9 <=? n) && (n <=? 13)) || (n =? 32))%N.

Fixpoint trimStart (s : string) : string :=
  match s with
  | EmptyString => EmptyString
  | String c r => if is_space c then trimStart r else s
  end.

Fixpoint trimEnd (s : string) : string :=
  match s with
  | EmptyString => EmptyString
  | String c r =>
      let r' := trimEnd r in
      if is_space c && String.eqb r' "" then EmptyString else String c r'
  end.

(** [s.trim()]. *)
Definition trim (s : string) : string := trimEnd (trimStart s).

(** [s.startsWith(q)]. *)
Fixpoint startsWith (s q : string) {struct q} : bool :=
  match q with
  | EmptyString => true
  | String a q' =>
      match s with
      | EmptyString => false
      | String b s' => Ascii.eqb a b && startsWith s' q'
      end
  end.

(** [s.includes(q)]: [q] occurs in [s] at some position. *)
Fixpoint includes (s q : string) {struct s} : bool :=
  startsWith s q
  || match s with
     | EmptyString => false
     | String _ r => includes r q
     end.

Definition is_digit (c : ascii) : bool :=
  let n := N_of_ascii c in ((48 <=? n) && (n <=? 57))%N.

Definition digit_value (c : ascii) : Z := Z.of_N (N_of_ascii c) - 48.

(** The number read from the decimal digits at the front of [s], continuing
    the number [acc] read so far. *)
Fixpoint digits_value (s : string) (acc : Z) : Z :=
  match s with
  | EmptyString => acc
  | String c r => if is_digit c then digits_value r (10 * acc + digit_value c) else acc
  end.

(** The digits at the front of [s] as a number; [NaN], here [None], when
    [s] does not start with a digit. *)
Definition leading_number (s : string) : option Z :=
  match s with
  | EmptyString => None
  | String c _ => if is_digit c then Some (digits_value s 0) else None
  end.

(** [parseInt(s, 10)]: white space in front is skipped, a sign is read, then
    the longest run of digits; what follows the digits is ignored. *)
Definition parseInt (s : string) : option Z :=
  match trimStart s with
  | String "-" r => option_map Z.opp (leading_number r)
  | String "+" r => leading_number r
  | t => leading_number t
  end.

End Text.

(** ** What the component renders from its state *)

Module Menu.

(** The test of the parameter filter on one item, [q] being the lowercased
    filter. *)
Definition matches (q : string) (it : App.ParamItem) : bool :=
  Text.includes (JS.toLowerCase (App.label it)) q
  || Text.includes (JS.toLowerCase (App.key it)) q.

(** The [useMemo] of [filteredGroups]. *)
Definition filteredGroups (paramFilter : string) : list (string * list App.ParamItem) :=
  if String.eqb (Text.trim paramFilter) "" then App.PARAM_GROUPS
  else
    let q := JS.toLowerCase paramFilter in
    List.filter (fun g => 0 <? Z.of_nat (length (snd g)))
      (map (fun g => (fst g, List.filter (matches q) (snd g))) App.PARAM_GROUPS).

End Menu.

Module View.

(** The argument object both [useMemo]s of the image URLs pass:
    [{ cycleHour, fhr, param: activeParam }]. *)
Definition args_of (s : Playback.State) : App.Args :=
  {| App.model := None; App.area := None;
     App.cycleHour := Playback.cycleHour s; App.fhr := Playback.fhr s;
     App.param := Playback.activeParam s |}.

Definition imageUrlDirect (s : Playback.State) : string :=
  App.buildMagDirectUrl (args_of s).

Definition imageUrl (s : Playback.State) : string :=
  App.buildMagProxyUrl (args_of s).

Definition hours (s : Playback.State) : list Z :=
  App.listHoursForCycle (Playback.cycleHour s).

(** The text of a button of the hour grid and of the "Fhr" box. *)
Definition hourLabel (h : Z) : string := JS.padStart 3 "0" (JS.String_num h).

(** An [<option>] of the run selector: its [value] attribute and its text. *)
Record CycleOption := { value : string; text : string }.

Definition cycleOptions : list CycleOption :=
  map (fun h => {| value := JS.String_num h; text := App.zFmt h |})
    (JS.array_from_indices 24).

(** The argument of [setCycleHour] in the [onChange] of the selector. *)
Definition onCycleChange (target_value : string) : option Z :=
  Text.parseInt target_value.

(** The keys of the buttons of the parameter menu, as filtered. *)
Definition menuKeys (s : Playback.State) : list string :=
  concat (map (fun g => map App.key (snd g)) (Menu.filteredGroups (Playback.paramFilter s))).

End View.

(** ** Notions used by the further properties *)

Module Laws.

(** Whether the page rendered in state [s] can produce the event [e]: a
    cycle comes from an option of the selector, a parameter from a button of
    the filtered menu, an hour from a button of the hour grid; nothing calls
    [setSpeedMs]. *)
Definition ui_event (s : Playback.State) (e : Playback.Event) : bool :=
  match e with
  | Playback.SelectCycle h =>
      existsb (fun o => match View.onCycleChange (View.value o) with
                        | Some h' => h' =? h
                        | None => false
                        end) View.cycleOptions
  | Playback.ChangeSpeed _ => false
  | Playback.SelectParam k => existsb (String.eqb k) (View.menuKeys s)
  | Playback.SelectHour h => existsb (Z.eqb h) (View.hours s)
  | _ => true
  end.

(** Every event of the sequence can be produced by the page in the state
    the events before it lead to. *)
Fixpoint ui_trace (events : list Playback.Event) (s : Playback.State) : bool :=
  match events with
  | [] => true
  | e :: rest =>
      ui_event s e
      && match Playback.step e s with
         | Some s' => ui_trace rest s'
         | None => false
         end
  end.

(** [k] advances in a row under cycle hour [c]. *)
Fixpoint advance_n (c : Z) (k : nat) (f : Z) : option Z :=
  match k with
  | O => Some f
  | S k' => f' ← App.tickUpdater c f; advance_n c k' f'
  end.

(** A request that carries the six fields [f] as its parameters. *)
Definition event_of_fields (f : Mag.Fields) : Mag.Event :=
  {| Mag.queryStringParameters :=
       Some (<[ "model" := Mag.model f ]>
               (<[ "area" := Mag.area f ]>
                  (<[ "cycle" := Mag.cycle f ]>
                     (<[ "fhr" := Mag.fhr f ]>
                        (<[ "param" := Mag.param f ]>
                           (<[ "size" := Mag.size f ]> ∅)))))) |}.

Definition handler_keys : list string :=
  [ "model"; "area"; "cycle"; "fhr"; "param"; "size" ].

(** The characters of a Base64 text. *)
Definition base64_alphabet (c : ascii) : bool :=
  let n := N_of_ascii c in
  (((65 <=? n) && (n <=? 90)) || ((97 <=? n) && (n <=? 122))
   || ((48 <=? n) && (n <=? 57)) || (n =? 43) || (n =? 47) || (n =? 61))%N.

(** The characters a proxy URL is written with: letters, digits, and
    [* - . _ % + / ? & =]. *)
Definition proxy_url_char (c : ascii) : bool :=
  JS.urlencoded_safe c
  || existsb (Ascii.eqb c) [ "%"; "+"; "/"; "?"; "&"; "=" ]%char.

Fixpoint all_chars (P : ascii -> bool) (s : string) : bool :=
  match s with
  | EmptyString => true
  | String c r => P c && all_chars P r
  end.

(** An ASCII character, and a string of ASCII characters: on these the
    lowercasing, the white space and the URL-encoding of the embedding are
    those of JavaScript. *)
Definition is_ascii (c : ascii) : bool := (N_of_ascii c <? 128)%N.

Definition ascii_only (s : string) : bool := all_chars is_ascii s.

(** A safe integer, [Number.MAX_SAFE_INTEGER] being 2^53 - 1: [String]
    writes all its digits. *)
Definition safe_integer (z : Z) : bool := Z.abs z <=? 9007199254740991.

(** The outcome of the fetch is a 2xx answer whose body could be read. *)
Definition upstream_success (outcome : JS.Completion Mag.Response) : bool :=
  match outcome with
  | JS.Normal resp =>
      Mag.ok resp && match Mag.payload resp with JS.Normal _ => true | JS.Throw _ => false end
  | JS.Throw _ => false
  end.

(** What the page keeps true of its state: the cycle hour is one of the 24
    options, the forecast hour lies in 0..48, the parameter is a key of the
    catalog, the period is the initial 600 ms, also for the timers set up. *)
Definition ui_invariant (s : Playback.State) : Prop :=
  0 <= Playback.cycleHour s <= 23
  /\ 0 <= Playback.fhr s <= 48
  /\ In (Playback.activeParam s) App.catalog_keys
  /\ Playback.speedMs s = 600
  /\ Forall (fun t => Playback.delay t = 600) (Playback.intervals s).

End Laws.

(** * Properties *)

(** Case analysis on every integer comparison of the goal, then linear
    arithmetic. *)
Ltac Z_cases :=
  repeat (match goal with
          | |- context [Z.eqb ?a ?b] => destruct (Z.eqb_spec a b)
          | |- context [Z.leb ?a ?b] => destruct (Z.leb_spec a b)
          | |- context [Z.ltb ?a ?b] => destruct (Z.ltb_spec a b)
          | _ : context [Z.eqb ?a ?b] |- _ => destruct (Z.eqb_spec a b)
          | _ : context [Z.leb ?a ?b] |- _ => destruct (Z.leb_spec a b)
          | _ : context [Z.ltb ?a ?b] |- _ => destruct (Z.ltb_spec a b)
          end; cbn [andb orb negb] in *);
  try reflexivity; try lia.

(** ** Strings *)

Lemma app_nil_l (s : string) : "" +:+ s = s.
Proof. reflexivity. Qed.

Lemma app_cons (c : ascii) (s t : string) : String c s +:+ t = String c (s +:+ t).
Proof. reflexivity. Qed.

Lemma app_nil_r (s : string) : s +:+ "" = s.
Proof. induction s as [|c s IH]; [reflexivity | now rewrite app_cons, IH]. Qed.

Lemma app_assoc (a b c : string) : (a +:+ b) +:+ c = a +:+ (b +:+ c).
Proof. induction a as [|x a IH]; [reflexivity | now rewrite !app_cons, IH]. Qed.

Lemma length_app (a b : string) :
  String.length (a +:+ b) = (String.length a + String.length b)%nat.
Proof. induction a as [|x a IH]; [reflexivity | rewrite app_cons; simpl; now rewrite IH]. Qed.

Lemma eqb_empty_length (s : string) :
  String.eqb s "" = (String.length s =? 0)%nat.
Proof. destruct s; reflexivity. Qed.

(** ** The valid forecast hours *)

Lemma array_from_indices_consecutive (n : nat) :
  JS.array_from_indices (Z.of_nat n) = Spec.consecutive 0 n.
Proof.
  unfold JS.array_from_indices. rewrite Nat2Z.id.
  change 0 with (Z.of_nat 0) at 1. generalize 0%nat as a.
  induction n as [|n IH]; intros a; simpl; [reflexivity|].
  f_equal. rewrite IH. f_equal. lia.
Qed.

Lemma length_consecutive (a : Z) (n : nat) : length (Spec.consecutive a n) = n.
Proof. revert a; induction n as [|n IH]; intros a; simpl; [reflexivity | now rewrite IH]. Qed.

Lemma lookup_consecutive (a : Z) (n i : nat) :
  (i < n)%nat -> Spec.consecutive a n !! i = Some (a + Z.of_nat i).
Proof.
  revert a i; induction n as [|n IH]; intros a i Hi; [lia|].
  destruct i as [|i]; simpl.
  - f_equal; lia.
  - rewrite IH by lia. f_equal; lia.
Qed.

Lemma elem_of_consecutive (a : Z) (n : nat) (x : Z) :
  x ∈ Spec.consecutive a n <-> a <= x < a + Z.of_nat n.
Proof.
  revert a; induction n as [|n IH]; intros a; simpl.
  - rewrite elem_of_nil. lia.
  - rewrite elem_of_cons, IH. lia.
Qed.

Lemma indexOf_from_consecutive (i a : Z) (n : nat) (x : Z) :
  JS.indexOf_from i (Spec.consecutive a n) x
  = if (a <=? x) && (x <? a + Z.of_nat n) then i + (x - a) else -1.
Proof.
  revert i a; induction n as [|n IH]; intros i a.
  - cbn [Spec.consecutive JS.indexOf_from]. Z_cases.
  - cbn [Spec.consecutive JS.indexOf_from]. rewrite IH. Z_cases.
Qed.

Lemma isExtendedCycle_spec (h : Z) :
  App.isExtendedCycle h = bool_decide (h = 0 ∨ h = 6 ∨ h = 12 ∨ h = 18).
Proof.
  unfold App.isExtendedCycle, JS.includes. simpl.
  case_bool_decide as H.
  - destruct H as [-> | [-> | [-> | ->]]]; reflexivity.
  - destruct (h =? 0) eqn:E0, (h =? 6) eqn:E6, (h =? 12) eqn:E12, (h =? 18) eqn:E18;
      simpl; try reflexivity; exfalso; apply H; lia.
Qed.

Lemma listHoursForCycle_consecutive (h : Z) :
  App.listHoursForCycle h = Spec.consecutive 0 (Z.to_nat (Spec.max_hour h + 1)).
Proof.
  unfold App.listHoursForCycle, Spec.max_hour. rewrite isExtendedCycle_spec.
  case_bool_decide;
    [apply (array_from_indices_consecutive 49) | apply (array_from_indices_consecutive 19)].
Qed.

Lemma max_hour_cases (h : Z) : Spec.max_hour h = 48 \/ Spec.max_hour h = 18.
Proof. unfold Spec.max_hour. case_bool_decide; auto. Qed.

(** The updater of the timer tick, in closed form. *)
Lemma tickUpdater_closed_form (c f : Z) :
  App.tickUpdater c f
  = Some (if (0 <=? f) && (f <? Spec.max_hour c) then f + 1 else 0).
Proof.
  unfold App.tickUpdater, JS.indexOf, JS.at_index.
  rewrite listHoursForCycle_consecutive, length_consecutive, indexOf_from_consecutive.
  pose proof (max_hour_cases c) as Hm.
  Z_cases; rewrite lookup_consecutive by lia; f_equal; lia.
Qed.

Lemma nextUpdater_is_tickUpdater (c f : Z) : App.nextUpdater c f = App.tickUpdater c f.
Proof. reflexivity. Qed.

(** C5: the valid forecast hours of cycle hour [h] are the consecutive
    integers 0..48 (49 of them) when [h] is 0, 6, 12 or 18, and 0..18 (19 of
    them) otherwise; [listHoursForCycle 0] has length 49 and
    [listHoursForCycle 3] has length 19. *)
Theorem listHoursForCycle_spec (h : Z) :
  App.listHoursForCycle h
  = (if bool_decide (h = 0 ∨ h = 6 ∨ h = 12 ∨ h = 18)
     then Spec.consecutive 0 49 else Spec.consecutive 0 19)
  /\ length (App.listHoursForCycle h)
     = (if bool_decide (h = 0 ∨ h = 6 ∨ h = 12 ∨ h = 18) then 49%nat else 19%nat)
  /\ (forall x : Z, x ∈ App.listHoursForCycle h <-> 0 <= x <= Spec.max_hour h)
  /\ length (App.listHoursForCycle 0) = 49%nat
  /\ length (App.listHoursForCycle 3) = 19%nat.
Proof.
  rewrite listHoursForCycle_consecutive.
  pose proof (max_hour_cases h) as Hm.
  split; [|split; [|split; [|split]]]; try reflexivity.
  - unfold Spec.max_hour. case_bool_decide; reflexivity.
  - rewrite length_consecutive. unfold Spec.max_hour. case_bool_decide; reflexivity.
  - intros x. rewrite elem_of_consecutive. lia.
Qed.

Lemma lookup_consecutive_Some (a : Z) (n i : nat) (x : Z) :
  Spec.consecutive a n !! i = Some x -> x = a + Z.of_nat i /\ (i < n)%nat.
Proof.
  intros H. pose proof (lookup_lt_Some _ _ _ H) as Hlt.
  rewrite length_consecutive in Hlt. rewrite lookup_consecutive in H by lia.
  split; [congruence | lia].
Qed.

(** C6: advancing (the timer tick and "Next hour" run the same updater)
    gives the element after the current hour in the valid-hours list when the
    current hour is in the list and is not its last element, and the first
    element, 0, when the current hour is the last element or is not in the
    list; from 18 under cycle 3 and from 48 under cycle 0 the result is 0. *)
Theorem advance_spec (c f : Z) :
  let l := App.listHoursForCycle c in
  App.nextUpdater c f = App.tickUpdater c f
  /\ (forall (i : nat) (g : Z),
        l !! i = Some f -> l !! S i = Some g -> App.tickUpdater c f = Some g)
  /\ (last l = Some f -> App.tickUpdater c f = head l)
  /\ (f ∉ l -> App.tickUpdater c f = head l)
  /\ head l = Some 0
  /\ App.tickUpdater c f
     = Some (if (0 <=? f) && (f <? Spec.max_hour c) then f + 1 else 0)
  /\ App.tickUpdater 3 18 = Some 0
  /\ App.tickUpdater 0 48 = Some 0.
Proof.
  intros l. pose proof (max_hour_cases c) as Hm.
  assert (Hl : l = Spec.consecutive 0 (Z.to_nat (Spec.max_hour c + 1)))
    by apply listHoursForCycle_consecutive.
  assert (Hhead : head l = Some 0).
  { rewrite Hl. destruct Hm as [-> | ->]; reflexivity. }
  rewrite nextUpdater_is_tickUpdater, Hhead, tickUpdater_closed_form.
  split; [reflexivity|]. split; [|split; [|split; [|split; [|split; [|split]]]]];
    try reflexivity.
  - intros i g Hi Hg. rewrite Hl in Hi, Hg.
    apply lookup_consecutive_Some in Hi, Hg. f_equal. Z_cases.
  - rewrite last_lookup, Hl, length_consecutive. intros Hlast.
    apply lookup_consecutive_Some in Hlast. f_equal. Z_cases.
  - rewrite Hl, elem_of_consecutive. intros Hnot. f_equal. Z_cases.
Qed.

Lemma advance_spec_witness :
  App.tickUpdater 3 5 = Some 6
  /\ App.tickUpdater 3 18 = head (App.listHoursForCycle 3)
  /\ App.tickUpdater 3 77 = head (App.listHoursForCycle 3).
Proof.
  split; [|split].
  - apply (proj1 (proj2 (advance_spec 3 5)) 5%nat 6); reflexivity.
  - apply (proj1 (proj2 (proj2 (advance_spec 3 18)))); reflexivity.
  - apply (proj1 (proj2 (proj2 (proj2 (advance_spec 3 77))))).
    rewrite listHoursForCycle_consecutive, elem_of_consecutive.
    change (Spec.max_hour 3) with 18. lia.
Defined.

(** C7: stepping back from forecast hour [f] gives [max(0, f - 1)]: one
    less, never below 0 and never wrapping to the top; from 0 it stays 0. *)
Theorem prevUpdater_spec (f : Z) :
  App.prevUpdater f = (if f <? 1 then 0 else f - 1)
  /\ App.prevUpdater f = Z.max 0 (f - 1)
  /\ 0 <= App.prevUpdater f
  /\ App.prevUpdater 0 = 0
  /\ (forall s : Playback.State,
        Playback.step Playback.PrevHour s
        = Some (if Playback.mounted s
                then Playback.setFhr (Z.max 0 (Playback.fhr s - 1)) s
                else s)).
Proof.
  unfold App.prevUpdater. repeat split; try lia.
  - Z_cases.
  - intros s. simpl. destruct (Playback.mounted s); reflexivity.
Qed.

(** ** Padding and letter case *)

Example String_num_examples :
  JS.String_num 0 = "0" /\ JS.String_num 7 = "7" /\ JS.String_num 120 = "120"
  /\ JS.String_num (-5) = "-5".
Proof. repeat split; reflexivity. Qed.

Example padStart_examples :
  JS.padStart 2 "0" "7" = "07" /\ JS.padStart 3 "0" "" = "000"
  /\ JS.padStart 3 "0" "1234" = "1234" /\ JS.padStart 5 "ab" "x" = "ababx"
  /\ JS.padStart 2 "0" (JS.String_num (-5)) = "-5".
Proof. repeat split; reflexivity. Qed.

Lemma fill_zeros (n : nat) (rest : string) :
  rest = "" \/ rest = "0" -> JS.fill n rest "0" = Spec.zeros n.
Proof.
  revert rest; induction n as [|n IH]; intros rest Hrest; [reflexivity|].
  destruct Hrest as [-> | ->]; simpl; rewrite IH; auto.
Qed.

(** [padStart] with the filler ["0"] puts zeros in front. *)
Lemma padStart_zeros (w : nat) (s : string) :
  JS.padStart w "0" s = Spec.zeros (w - String.length s) +:+ s.
Proof.
  unfold JS.padStart. destruct (Nat.leb_spec w (String.length s)) as [H|H].
  - replace (w - String.length s)%nat with 0%nat by lia. reflexivity.
  - simpl String.eqb. cbv iota. rewrite fill_zeros by auto. reflexivity.
Qed.

Lemma length_zeros (n : nat) : String.length (Spec.zeros n) = n.
Proof. induction n as [|n IH]; simpl; [reflexivity | now rewrite IH]. Qed.

Lemma length_padStart_zeros (w : nat) (s : string) :
  String.length (JS.padStart w "0" s) = Nat.max w (String.length s).
Proof. rewrite padStart_zeros, length_app, length_zeros. lia. Qed.

Lemma padStart_long (w : nat) (filler s : string) :
  (w <= String.length s)%nat -> JS.padStart w filler s = s.
Proof.
  intros H. unfold JS.padStart.
  destruct (Nat.leb_spec w (String.length s)); [reflexivity | lia].
Qed.

(** Padding twice is padding once. *)
Lemma padStart_idempotent (w : nat) (s : string) :
  JS.padStart w "0" (JS.padStart w "0" s) = JS.padStart w "0" s.
Proof. apply padStart_long. rewrite length_padStart_zeros. lia. Qed.

Lemma padStart_nonempty (w : nat) (s : string) :
  (0 < w)%nat -> JS.padStart w "0" s <> "".
Proof.
  intros Hw Heq. pose proof (length_padStart_zeros w s) as Hlen.
  rewrite Heq in Hlen. simpl in Hlen. lia.
Qed.

Lemma zero_padded_padStart (w : nat) (n : Z) :
  JS.padStart w "0" (JS.String_num n) = Spec.zero_padded w n.
Proof. apply padStart_zeros. Qed.



Lemma lower_ascii_fixed (c : ascii) :
  Spec.is_upper c = false -> JS.lower_ascii c = c.
Proof. unfold Spec.is_upper, JS.lower_ascii. now intros ->. Qed.

Lemma lower_ascii_not_upper (c : ascii) : Spec.is_upper (JS.lower_ascii c) = false.
Proof. destruct c as [[] [] [] [] [] [] [] []]; reflexivity. Qed.

(** A string without upper-case letters is its own lower-case form. *)
Lemma toLowerCase_fixed (s : string) :
  Spec.all_lowercase s = true -> JS.toLowerCase s = s.
Proof.
  induction s as [|c s IH]; [reflexivity|]. simpl.
  intros [Hc Hs]%andb_true_iff. apply negb_true_iff in Hc.
  now rewrite lower_ascii_fixed, IH.
Qed.

Lemma toLowerCase_all_lowercase (s : string) :
  Spec.all_lowercase (JS.toLowerCase s) = true.
Proof.
  induction s as [|c s IH]; [reflexivity|]. simpl.
  now rewrite lower_ascii_not_upper, IH.
Qed.

Lemma length_toLowerCase (s : string) :
  String.length (JS.toLowerCase s) = String.length s.
Proof. induction s as [|c s IH]; simpl; [reflexivity | now rewrite IH]. Qed.






(** ** The URL builders of the client *)

Lemma buildMagDirectUrl_with_unfold
    (sizeSuffix model area : string) (cycleHour fhr : Z) (param : string) :
  App.buildMagDirectUrl_with sizeSuffix
    {| App.model := Some model; App.area := Some area;
       App.cycleHour := cycleHour; App.fhr := fhr; App.param := param |}
  = "https://mag.ncep.noaa.gov/data/" +:+ model
      +:+ JS.padStart 2 "0" (JS.String_num cycleHour)
      +:+ "/" +:+ App.buildMagFilename_with sizeSuffix model area fhr param.
Proof. reflexivity. Qed.

(** C2: [buildMagDirectUrl] returns ["https://mag.ncep.noaa.gov/data/"],
    the model name, the cycle hour zero-padded to 2 digits with no separator,
    ["/"], and the file name
    [<model>_<area>_<forecast hour zero-padded to 3 digits>00_<parameter><size suffix>.gif];
    for the cycle hours 0..23 the padded hour is exactly two digits, for the
    forecast hours 0..999 exactly three; the file name for hrrr, conus, 3,
    ceiling is ["hrrr_conus_00300_ceiling.gif"] and the URL for cycle hour 12
    is ["https://mag.ncep.noaa.gov/data/hrrr12/hrrr_conus_00300_ceiling.gif"]. *)
Theorem buildMagDirectUrl_spec
    (sizeSuffix model area : string) (cycleHour fhr : Z) (param : string) :
  App.buildMagDirectUrl_with sizeSuffix
    {| App.model := Some model; App.area := Some area;
       App.cycleHour := cycleHour; App.fhr := fhr; App.param := param |}
  = "https://mag.ncep.noaa.gov/data/" +:+ model +:+ Spec.zero_padded 2 cycleHour
      +:+ "/" +:+ App.buildMagFilename_with sizeSuffix model area fhr param
  /\ App.buildMagFilename_with sizeSuffix model area fhr param
     = model +:+ "_" +:+ area +:+ "_" +:+ Spec.zero_padded 3 fhr +:+ "00_"
         +:+ param +:+ sizeSuffix +:+ ".gif"
  /\ Forall (fun h => Spec.zero_padded 2 h = Spec.two_digits h) (Spec.consecutive 0 24)
  /\ Forall (fun f => Spec.zero_padded 3 f = Spec.three_digits f) (Spec.consecutive 0 1000)
  /\ App.buildMagFilename "hrrr" "conus" 3 "ceiling" = "hrrr_conus_00300_ceiling.gif"
  /\ App.buildMagDirectUrl
       {| App.model := Some "hrrr"; App.area := Some "conus";
          App.cycleHour := 12; App.fhr := 3; App.param := "ceiling" |}
     = "https://mag.ncep.noaa.gov/data/hrrr12/hrrr_conus_00300_ceiling.gif".
Proof.
  split; [|split; [|split; [|split; [|split]]]]; try reflexivity.
  - now rewrite buildMagDirectUrl_with_unfold, zero_padded_padStart.
  - unfold App.buildMagFilename_with. rewrite zero_padded_padStart.
    rewrite !app_assoc. reflexivity.
  - apply Forall_forall. intros h Hh.
    assert (Hall : forallb (fun h => String.eqb (Spec.zero_padded 2 h) (Spec.two_digits h))
                     (Spec.consecutive 0 24) = true) by (vm_compute; reflexivity).
    rewrite forallb_forall in Hall. apply String.eqb_eq, Hall, list_elem_of_In, Hh.
  - apply Forall_forall. intros f Hf.
    assert (Hall : forallb (fun f => String.eqb (Spec.zero_padded 3 f) (Spec.three_digits f))
                     (Spec.consecutive 0 1000) = true) by (vm_compute; reflexivity).
    rewrite forallb_forall in Hall. apply String.eqb_eq, Hall, list_elem_of_In, Hf.
Qed.



(** ** The relay: the fields of the remote URL *)

Lemma or_else_parameter (ev : Mag.Event) (k d : string) :
  JS.or_else (default ∅ (Mag.queryStringParameters ev) !! k) d = Spec.parameter ev k d.
Proof.
  unfold Spec.parameter, JS.or_else. destruct ev as [[p|]]; simpl.
  - destruct (p !! k) as [v|]; [|reflexivity].
    destruct (String.eqb_spec v ""), (decide (v = "")); congruence.
  - now rewrite lookup_empty.
Qed.

(** C4, as stated, fails: the relay does not lowercase [size].  A request
    with [size=_L] is relayed to a URL containing [_L]. *)
Lemma handler_size_keeps_case :
  let ev := {| Mag.queryStringParameters := Some {[ "size" := "_L" ]} |} in
  Mag.size (Mag.fields ev) = "_L"
  /\ Mag.size (Mag.fields ev) <> JS.toLowerCase "_L"
  /\ Mag.remote ev = "https://mag.ncep.noaa.gov/data/hrrr00/hrrr_conus_00000_ceiling_L.gif".
Proof. vm_compute. repeat split. discriminate. Qed.

(** C4, amended: for every request the relay takes [model], [area] and
    [param] lowercased, with the defaults ["hrrr"], ["conus"] and
    ["ceiling"] for a missing or empty value; it takes [size] as it is given
    (not lowercased), empty by default; it takes [cycle] (default: empty) and
    [fhr] (default ["0"]) as strings with zeros put in front up to 2 and 3
    characters, whatever the strings are; the remote URL is made of these
    six fields.  With no parameter at all the fields are hrrr, conus, 00,
    000, ceiling and the empty suffix; [cycle=99] and [fhr=abcd] go through
    unchanged. *)
Theorem handler_fields_spec (ev : Mag.Event) :
  let f := Mag.fields ev in
  let cycle := Spec.parameter ev "cycle" "" in
  let fhr := Spec.parameter ev "fhr" "0" in
  Mag.model f = JS.toLowerCase (Spec.parameter ev "model" "hrrr")
  /\ Mag.area f = JS.toLowerCase (Spec.parameter ev "area" "conus")
  /\ Mag.param f = JS.toLowerCase (Spec.parameter ev "param" "ceiling")
  /\ Spec.all_lowercase (Mag.model f) && Spec.all_lowercase (Mag.area f)
     && Spec.all_lowercase (Mag.param f) = true
  /\ Mag.size f = Spec.parameter ev "size" ""
  /\ Mag.cycle f = Spec.zeros (2 - String.length cycle) +:+ cycle
  /\ Mag.fhr f = Spec.zeros (3 - String.length fhr) +:+ fhr
  /\ Mag.remote ev
     = "https://mag.ncep.noaa.gov/data/" +:+ Mag.model f +:+ Mag.cycle f +:+ "/"
         +:+ Mag.model f +:+ "_" +:+ Mag.area f +:+ "_" +:+ Mag.fhr f +:+ "00_"
         +:+ Mag.param f +:+ Mag.size f +:+ ".gif"
  /\ Mag.fields {| Mag.queryStringParameters := None |}
     = {| Mag.model := "hrrr"; Mag.area := "conus"; Mag.cycle := "00";
          Mag.fhr := "000"; Mag.param := "ceiling"; Mag.size := "" |}
  /\ Mag.fields {| Mag.queryStringParameters := Some ∅ |}
     = {| Mag.model := "hrrr"; Mag.area := "conus"; Mag.cycle := "00";
          Mag.fhr := "000"; Mag.param := "ceiling"; Mag.size := "" |}
  /\ Mag.remote
       {| Mag.queryStringParameters :=
            Some (<[ "cycle" := "99" ]> (<[ "fhr" := "abcd" ]> ∅)) |}
     = "https://mag.ncep.noaa.gov/data/hrrr99/hrrr_conus_abcd00_ceiling.gif".
Proof.
  intros f cycle fhr. subst f cycle fhr. unfold Mag.remote, Mag.filename, Mag.fields.
  cbn [Mag.model Mag.area Mag.cycle Mag.fhr Mag.param Mag.size].
  rewrite !or_else_parameter, !padStart_zeros, !toLowerCase_all_lowercase.
  repeat split; reflexivity.
Qed.

(** ** The query string: writing it and reading it back *)

Example buildMagProxyUrl_example :
  App.buildMagProxyUrl
    {| App.model := None; App.area := None;
       App.cycleHour := 12; App.fhr := 3; App.param := "ceiling" |}
  = "/.netlify/functions/mag?model=hrrr&area=conus&cycle=12&fhr=003&param=ceiling".
Proof. reflexivity. Qed.

Example URLSearchParams_toString_example :
  JS.URLSearchParams_toString [ ("q", "a b&c=d/e+f"); ("x_y", "~.-*") ]
  = "q=a+b%26c%3Dd%2Fe%2Bf&x_y=%7E.-*".
Proof. reflexivity. Qed.

Lemma urldecode_urlencode_char (c : ascii) (rest : string) :
  JS.percent_decode (JS.plus_to_space (JS.urlencode_char c +:+ rest))
  = String c (JS.percent_decode (JS.plus_to_space rest)).
Proof. destruct c as [[] [] [] [] [] [] [] []]; reflexivity. Qed.

(** Decoding an encoded string gives the string back. *)
Lemma urldecode_urlencode (s : string) : JS.urldecode (JS.urlencode s) = s.
Proof.
  unfold JS.urldecode. induction s as [|c s IH]; [reflexivity|].
  cbn [JS.urlencode]. now rewrite urldecode_urlencode_char, IH.
Qed.

Lemma free_of_app (c : ascii) (a b : string) :
  Spec.free_of c (a +:+ b) = Spec.free_of c a && Spec.free_of c b.
Proof.
  induction a as [|x a IH]; [reflexivity|].
  rewrite app_cons. simpl. now rewrite IH, andb_assoc.
Qed.

Lemma free_of_urlencode_char (c : ascii) :
  Spec.free_of "&" (JS.urlencode_char c) = true
  /\ Spec.free_of "=" (JS.urlencode_char c) = true.
Proof. destruct c as [[] [] [] [] [] [] [] []]; split; reflexivity. Qed.

(** The encoder writes neither [&] nor [=]. *)
Lemma free_of_urlencode (s : string) :
  Spec.free_of "&" (JS.urlencode s) = true /\ Spec.free_of "=" (JS.urlencode s) = true.
Proof.
  induction s as [|c s [IH1 IH2]]; [split; reflexivity|].
  cbn [JS.urlencode]. rewrite !free_of_app, IH1, IH2.
  destruct (free_of_urlencode_char c) as [-> ->]. split; reflexivity.
Qed.

Lemma split_on_nonempty (sep : ascii) (s : string) : JS.split_on sep s <> [].
Proof.
  destruct s as [|c s]; simpl; [discriminate|].
  destruct (Ascii.eqb c sep); [discriminate|].
  destruct (JS.split_on sep s); discriminate.
Qed.

Lemma split_on_free (sep : ascii) (a : string) :
  Spec.free_of sep a = true -> JS.split_on sep a = [a].
Proof.
  induction a as [|c a IH]; [reflexivity|]. simpl.
  intros [Hc Ha]%andb_true_iff. apply negb_true_iff in Hc.
  now rewrite Hc, IH.
Qed.

Lemma split_on_app (sep : ascii) (a rest : string) :
  Spec.free_of sep a = true ->
  JS.split_on sep (a +:+ String sep rest) = a :: JS.split_on sep rest.
Proof.
  induction a as [|c a IH].
  - intros _. rewrite app_nil_l. simpl. now rewrite Ascii.eqb_refl.
  - simpl Spec.free_of. intros [Hc Ha]%andb_true_iff. apply negb_true_iff in Hc.
    rewrite app_cons. simpl. now rewrite Hc, IH.
Qed.

Lemma cut_at_app (sep : ascii) (a b : string) :
  Spec.free_of sep a = true -> JS.cut_at sep (a +:+ String sep b) = Some (a, b).
Proof.
  induction a as [|c a IH].
  - intros _. rewrite app_nil_l. simpl. now rewrite Ascii.eqb_refl.
  - simpl Spec.free_of. intros [Hc Ha]%andb_true_iff. apply negb_true_iff in Hc.
    rewrite app_cons. simpl. now rewrite Hc, IH.
Qed.

Lemma parse_serialize_pair (kv : string * string) :
  JS.parse_pair (JS.serialize_pair kv) = kv.
Proof.
  destruct kv as [k v]. unfold JS.parse_pair, JS.serialize_pair. simpl fst; simpl snd.
  rewrite app_cons, app_nil_l.
  rewrite cut_at_app by apply free_of_urlencode.
  now rewrite !urldecode_urlencode.
Qed.

Lemma serialize_pair_free (kv : string * string) :
  Spec.free_of "&" (JS.serialize_pair kv) = true.
Proof.
  unfold JS.serialize_pair. rewrite !free_of_app.
  destruct (free_of_urlencode (fst kv)) as [-> _].
  destruct (free_of_urlencode (snd kv)) as [-> _]. reflexivity.
Qed.

Lemma serialize_pair_nonempty (kv : string * string) :
  String.eqb (JS.serialize_pair kv) "" = false.
Proof.
  rewrite eqb_empty_length. unfold JS.serialize_pair.
  rewrite !length_app. simpl. apply Nat.eqb_neq. lia.
Qed.

(** Reading back what [URLSearchParams.toString] wrote gives the entries it
    was built from, in their order. *)
Lemma parse_urlencoded_toString (qs : JS.URLSearchParams) :
  JS.parse_urlencoded (JS.URLSearchParams_toString qs) = qs.
Proof.
  unfold JS.parse_urlencoded, JS.URLSearchParams_toString.
  induction qs as [|kv qs IH]; [reflexivity|].
  destruct qs as [|kv' qs].
  - change (String.concat "&" (map JS.serialize_pair [kv])) with (JS.serialize_pair kv).
    rewrite split_on_free by apply serialize_pair_free.
    cbn [List.filter]. rewrite serialize_pair_nonempty. cbn [negb map].
    now rewrite parse_serialize_pair.
  - change (String.concat "&" (map JS.serialize_pair (kv :: kv' :: qs)))
      with (JS.serialize_pair kv
              +:+ String "&" (String.concat "&" (map JS.serialize_pair (kv' :: qs)))).
    rewrite split_on_app by apply serialize_pair_free.
    cbn [List.filter]. rewrite serialize_pair_nonempty. cbn [negb].
    rewrite map_cons, parse_serialize_pair. f_equal. exact IH.
Qed.

Lemma event_of_buildMagProxyUrl (args : App.Args) :
  Mag.event_of_url (App.buildMagProxyUrl args)
  = {| Mag.queryStringParameters := Some (JS.to_dictionary (App.proxyQuery args)) |}.
Proof.
  unfold Mag.event_of_url, App.buildMagProxyUrl.
  change (App.PROXY_BASE +:+ "?" +:+ JS.URLSearchParams_toString (App.proxyQuery args))
    with (App.PROXY_BASE +:+ String "?" (JS.URLSearchParams_toString (App.proxyQuery args))).
  rewrite cut_at_app by reflexivity.
  now rewrite parse_urlencoded_toString.
Qed.

Lemma or_else_Some (s d : string) : s <> "" -> JS.or_else (Some s) d = s.
Proof. intros H. unfold JS.or_else. now destruct (String.eqb_spec s ""). Qed.

Lemma nonempty_ne (s : string) : Spec.nonempty s = true <-> s <> "".
Proof. unfold Spec.nonempty. destruct (String.eqb_spec s ""); simpl; split; congruence. Qed.

Lemma to_dictionary_proxyQuery (args : App.Args) :
  JS.to_dictionary (App.proxyQuery args)
  = <[ "param" := App.param args ]>
      (<[ "fhr" := JS.padStart 3 "0" (JS.String_num (App.fhr args)) ]>
         (<[ "cycle" := JS.padStart 2 "0" (JS.String_num (App.cycleHour args)) ]>
            (<[ "area" := default App.AREA (App.area args) ]>
               (<[ "model" := default "hrrr" (App.model args) ]> ∅)))).
Proof. reflexivity. Qed.

(** The six fields the relay computes for a request made with the proxy URL
    of the client. *)
Lemma fields_of_proxy_request (args : App.Args) :
  Mag.fields (Mag.event_of_url (App.buildMagProxyUrl args))
  = {| Mag.model := JS.toLowerCase (JS.or_else (Some (default "hrrr" (App.model args))) "hrrr");
       Mag.area := JS.toLowerCase (JS.or_else (Some (default App.AREA (App.area args))) "conus");
       Mag.cycle := JS.padStart 2 "0" (JS.String_num (App.cycleHour args));
       Mag.fhr := JS.padStart 3 "0" (JS.String_num (App.fhr args));
       Mag.param := JS.toLowerCase (JS.or_else (Some (App.param args)) "ceiling");
       Mag.size := "" |}.
Proof.
  rewrite event_of_buildMagProxyUrl. unfold Mag.fields.
  cbn [Mag.queryStringParameters]. rewrite to_dictionary_proxyQuery.
  change (default ∅ (Some ?m)) with m.
  repeat first [ rewrite lookup_insert_eq
               | rewrite lookup_insert_ne by discriminate
               | rewrite lookup_empty ].
  rewrite (or_else_Some (JS.padStart 2 "0" _)) by (apply padStart_nonempty; lia).
  rewrite (or_else_Some (JS.padStart 3 "0" _)) by (apply padStart_nonempty; lia).
  now rewrite !padStart_idempotent.
Qed.

(** C1, as stated, fails.  With cycle hour 12 and forecast hour 3 (both in
    range): for the model ["HRRR"] the direct URL keeps the capitals and the
    relay lowercases them; for an empty parameter the relay puts its default
    ["ceiling"]; with the size suffix ["_l"] the direct URL carries the
    suffix and the proxy request, which has no [size], does not. *)
Lemma proxy_roundtrip_fails :
  let upper := {| App.model := Some "HRRR"; App.area := Some "conus";
                  App.cycleHour := 12; App.fhr := 3; App.param := "ceiling" |} in
  let blank := {| App.model := Some "hrrr"; App.area := Some "conus";
                  App.cycleHour := 12; App.fhr := 3; App.param := "" |} in
  let plain := {| App.model := Some "hrrr"; App.area := Some "conus";
                  App.cycleHour := 12; App.fhr := 3; App.param := "ceiling" |} in
  (0 <= 12 <= 23 /\ 0 <= 3 <= 999)
  /\ App.buildMagDirectUrl_with "" upper
     = "https://mag.ncep.noaa.gov/data/HRRR12/HRRR_conus_00300_ceiling.gif"
  /\ Mag.remote (Mag.event_of_url (App.buildMagProxyUrl upper))
     = "https://mag.ncep.noaa.gov/data/hrrr12/hrrr_conus_00300_ceiling.gif"
  /\ App.buildMagDirectUrl_with "" upper
     <> Mag.remote (Mag.event_of_url (App.buildMagProxyUrl upper))
  /\ App.buildMagDirectUrl_with "" blank
     <> Mag.remote (Mag.event_of_url (App.buildMagProxyUrl blank))
  /\ App.buildMagDirectUrl_with "_l" plain
     = "https://mag.ncep.noaa.gov/data/hrrr12/hrrr_conus_00300_ceiling_l.gif"
  /\ App.buildMagDirectUrl_with "_l" plain
     <> Mag.remote (Mag.event_of_url (App.buildMagProxyUrl plain)).
Proof.
  vm_compute. repeat split; try discriminate; try reflexivity.
Qed.

(** C1, amended: for every tuple whose model, area and parameter are
    non-empty strings of ASCII characters without upper-case letters, whose
    size suffix is empty (the suffix of the program as shipped), whose cycle
    hour is in 0..23 and whose forecast hour is in 0..999, the direct URL built
    by the client equals the URL the relay derives from the query parameters
    of the proxy URL built for the same tuple. *)
Theorem proxy_roundtrip (sizeSuffix : string) (args : App.Args) :
  let model := default "hrrr" (App.model args) in
  let area := default App.AREA (App.area args) in
  sizeSuffix = "" ->
  0 <= App.cycleHour args <= 23 ->
  0 <= App.fhr args <= 999 ->
  Laws.ascii_only model && Laws.ascii_only area && Laws.ascii_only (App.param args) = true ->
  Spec.nonempty model && Spec.all_lowercase model = true ->
  Spec.nonempty area && Spec.all_lowercase area = true ->
  Spec.nonempty (App.param args) && Spec.all_lowercase (App.param args) = true ->
  Mag.remote (Mag.event_of_url (App.buildMagProxyUrl args))
  = App.buildMagDirectUrl_with sizeSuffix args.
Proof.
  intros model area -> _ _ _ [Hm1 Hm2]%andb_true_iff [Ha1 Ha2]%andb_true_iff
    [Hp1 Hp2]%andb_true_iff.
  apply nonempty_ne in Hm1, Ha1, Hp1.
  unfold Mag.remote, Mag.filename. rewrite fields_of_proxy_request.
  cbn [Mag.model Mag.area Mag.cycle Mag.fhr Mag.param Mag.size].
  fold model area. rewrite !or_else_Some by assumption.
  rewrite !toLowerCase_fixed by assumption.
  unfold App.buildMagDirectUrl_with, App.buildMagFilename_with. fold model area.
  cbv zeta. rewrite !app_assoc. reflexivity.
Qed.

Lemma proxy_roundtrip_witness :
  Mag.remote
    (Mag.event_of_url
       (App.buildMagProxyUrl
          {| App.model := None; App.area := None;
             App.cycleHour := 12; App.fhr := 3; App.param := "ceiling" |}))
  = "https://mag.ncep.noaa.gov/data/hrrr12/hrrr_conus_00300_ceiling.gif".
Proof.
  rewrite (proxy_roundtrip ""
             {| App.model := None; App.area := None;
                App.cycleHour := 12; App.fhr := 3; App.param := "ceiling" |});
    [reflexivity | reflexivity | simpl; lia | simpl; lia | reflexivity ..].
Defined.

(** C10: the query string built by [buildMagProxyUrl] has exactly the five
    keys model, area, cycle, fhr and param, and no size key: it reads back as
    these five entries, the dictionary handed to the relay has these five
    keys, and the relay takes its default, the empty size suffix.  A
    configured size suffix is part of the direct URL of the client (it ends
    in the suffix followed by [.gif]) while the proxy URL does not depend on
    it; when the suffix is not empty (and model, area and parameter are not
    empty) the direct URL and the URL the relay fetches differ. *)
Theorem proxy_request_has_no_size (sizeSuffix : string) (args : App.Args) :
  let ev := Mag.event_of_url (App.buildMagProxyUrl args) in
  let p := default ∅ (Mag.queryStringParameters ev) in
  let model := default "hrrr" (App.model args) in
  let area := default App.AREA (App.area args) in
  map fst (App.proxyQuery args) = ["model"; "area"; "cycle"; "fhr"; "param"]
  /\ App.buildMagProxyUrl args
     = "/.netlify/functions/mag?" +:+ JS.URLSearchParams_toString (App.proxyQuery args)
  /\ JS.parse_urlencoded (JS.URLSearchParams_toString (App.proxyQuery args))
     = App.proxyQuery args
  /\ dom p = ({["model"]} ∪ {["area"]} ∪ {["cycle"]} ∪ {["fhr"]} ∪ {["param"]} : gset string)
  /\ p !! "size" = None
  /\ Mag.size (Mag.fields ev) = ""
  /\ (exists front : string,
        App.buildMagDirectUrl_with sizeSuffix args = front +:+ sizeSuffix +:+ ".gif")
  /\ (Spec.nonempty model && Spec.nonempty area && Spec.nonempty (App.param args) = true ->
      sizeSuffix <> "" ->
      App.buildMagDirectUrl_with sizeSuffix args <> Mag.remote ev).
Proof.
  intros ev p model area.
  split; [reflexivity|]. split; [reflexivity|].
  split; [apply parse_urlencoded_toString|].
  assert (Hp : p = JS.to_dictionary (App.proxyQuery args)).
  { subst p ev. now rewrite event_of_buildMagProxyUrl. }
  split; [|split; [|split; [|split]]].
  - rewrite Hp, to_dictionary_proxyQuery.
    rewrite !dom_insert_L, dom_empty_L. set_solver.
  - rewrite Hp, to_dictionary_proxyQuery.
    repeat (rewrite lookup_insert_ne by discriminate). apply lookup_empty.
  - subst ev. now rewrite fields_of_proxy_request.
  - unfold App.buildMagDirectUrl_with, App.buildMagFilename_with. cbv zeta.
    eexists. rewrite <- !app_assoc. reflexivity.
  - intros [[Hm Ha]%andb_true_iff Hq]%andb_true_iff Hsfx Heq.
    apply nonempty_ne in Hm, Ha, Hq.
    apply (f_equal String.length) in Heq. revert Heq.
    subst ev. unfold Mag.remote, Mag.filename. rewrite fields_of_proxy_request.
    cbn [Mag.model Mag.area Mag.cycle Mag.fhr Mag.param Mag.size].
    fold model area. rewrite !or_else_Some by assumption.
    unfold App.buildMagDirectUrl_with, App.buildMagFilename_with. fold model area.
    cbv zeta. rewrite !length_app, !length_toLowerCase.
    destruct sizeSuffix as [|c sfx]; [congruence|]. simpl String.length. lia.
Qed.

Lemma proxy_request_has_no_size_witness :
  App.buildMagDirectUrl_with "_l"
    {| App.model := None; App.area := None;
       App.cycleHour := 12; App.fhr := 3; App.param := "ceiling" |}
  <> Mag.remote
       (Mag.event_of_url
          (App.buildMagProxyUrl
             {| App.model := None; App.area := None;
                App.cycleHour := 12; App.fhr := 3; App.param := "ceiling" |})).
Proof.
  apply (proj2 (proj2 (proj2 (proj2 (proj2 (proj2 (proj2
           (proxy_request_has_no_size "_l"
              {| App.model := None; App.area := None;
                 App.cycleHour := 12; App.fhr := 3; App.param := "ceiling" |})))))))).
  - reflexivity.
  - discriminate.
Defined.

(** ** Base64 *)

Example base64_encode_examples :
  JS.base64_encode (list_byte_of_string "Man") = "TWFu"
  /\ JS.base64_encode (list_byte_of_string "Ma") = "TWE="
  /\ JS.base64_encode (list_byte_of_string "M") = "TQ=="
  /\ JS.base64_encode (list_byte_of_string "GIF89a") = "R0lGODlh".
Proof. repeat split; reflexivity. Qed.

Lemma base64_value_char (s : JS.sextet) : Spec.base64_value (JS.base64_char s) = Some s.
Proof. destruct s as [[[[[[] []] []] []] []] []]; reflexivity. Qed.

Lemma base64_char_not_pad (s : JS.sextet) : Ascii.eqb (JS.base64_char s) "=" = false.
Proof. destruct s as [[[[[[] []] []] []] []] []]; reflexivity. Qed.

Lemma byte_of_bits (x : Byte.byte) :
  let '(x0, x1, x2, x3, x4, x5, x6, x7) := JS.bits x in
  Spec.byte_of x7 x6 x5 x4 x3 x2 x1 x0 = x.
Proof.
  unfold JS.bits, Spec.byte_of.
  destruct (Byte.to_bits x) as (x0 & x1 & x2 & x3 & x4 & x5 & x6 & x7) eqn:E.
  rewrite <- E. apply Byte.of_bits_to_bits.
Qed.

(** Induction on a list of bytes three at a time. *)
Lemma list_ind3 {A : Type} (P : list A -> Prop) :
  P [] -> (forall x, P [x]) -> (forall x y, P [x; y]) ->
  (forall x y z l, P l -> P (x :: y :: z :: l)) ->
  forall l, P l.
Proof.
  intros H0 H1 H2 H3.
  assert (Hall : forall l, P l /\ (forall x, P (x :: l)) /\ (forall x y, P (x :: y :: l))).
  { induction l as [|z l (IH0 & IH1 & IH2)]; [auto|].
    split; [apply IH1|]. split; [intros x; apply IH2|]. intros x y. now apply H3. }
  intros l. apply Hall.
Qed.

(** Decoding the Base64 text of a buffer gives its bytes back. *)
Lemma base64_decode_encode (l : list Byte.byte) :
  Spec.base64_decode (JS.base64_encode l) = Some l.
Proof.
  induction l as [|x|x y|x y z l IH] using list_ind3.
  - reflexivity.
  - cbn [JS.base64_encode]. pose proof (byte_of_bits x) as Hx.
    destruct (JS.bits x) as [[[[[[[x0 x1] x2] x3] x4] x5] x6] x7].
    cbn [Spec.base64_decode]. rewrite !base64_value_char. simpl. now rewrite Hx.
  - cbn [JS.base64_encode]. pose proof (byte_of_bits x) as Hx.
    pose proof (byte_of_bits y) as Hy.
    destruct (JS.bits x) as [[[[[[[x0 x1] x2] x3] x4] x5] x6] x7].
    destruct (JS.bits y) as [[[[[[[y0 y1] y2] y3] y4] y5] y6] y7].
    cbn [Spec.base64_decode]. rewrite !base64_value_char.
    rewrite base64_char_not_pad. simpl. now rewrite Hx, Hy.
  - cbn [JS.base64_encode]. pose proof (byte_of_bits x) as Hx.
    pose proof (byte_of_bits y) as Hy. pose proof (byte_of_bits z) as Hz.
    destruct (JS.bits x) as [[[[[[[x0 x1] x2] x3] x4] x5] x6] x7].
    destruct (JS.bits y) as [[[[[[[y0 y1] y2] y3] y4] y5] y6] y7].
    destruct (JS.bits z) as [[[[[[[z0 z1] z2] z3] z4] z5] z6] z7].
    cbn [Spec.base64_decode]. rewrite !base64_value_char.
    rewrite base64_char_not_pad, IH. now rewrite Hx, Hy, Hz.
Qed.

(** ** The answers of the relay *)

(** C8: every answer of the relay has one of three shapes.  When the remote
    host answers with a status in 200..299: status 200, the headers
    [Content-Type: image/gif], [Cache-Control: public, max-age=300] and
    [Access-Control-Allow-Origin: *], a Base64 body that decodes to exactly
    the bytes received, and the Base64 flag set.  When it answers with
    another status: that status, the text of its body (what [text()] gives)
    unchanged, no headers (a 404 with body text ["not found"] is relayed as
    404 with body ["not found"]).  When the fetch or the reading of the body
    throws: status 500 with the string form of the error as body. *)
Theorem handler_response_shape (fetch : Mag.Fetch) (ev : Mag.Event) :
  Spec.Shape (fetch (Mag.remote ev) Mag.requestHeaders) (Mag.handler fetch ev)
  /\ Mag.handler
       (fun _ _ => JS.Normal {| Mag.status := 404;
                                Mag.payload := JS.Normal (list_byte_of_string "not found");
                                Mag.bodyText := JS.Normal "not found" |})
       ev
     = {| Mag.statusCode := 404; Mag.headers := None;
          Mag.body := "not found"; Mag.isBase64Encoded := None |}
  /\ Mag.handler
       (fun _ _ => JS.Throw {| JS.name := "TypeError"; JS.message := "fetch failed" |})
       ev
     = {| Mag.statusCode := 500; Mag.headers := None;
          Mag.body := "TypeError: fetch failed"; Mag.isBase64Encoded := None |}.
Proof.
  split; [|split; reflexivity].
  unfold Mag.handler.
  destruct (fetch (Mag.remote ev) Mag.requestHeaders) as [resp|err];
    [|apply Spec.Shape_fetch_failure].
  unfold bindC, Mag.ok, Mag.text, Mag.arrayBuffer, bindC.
  destruct (Z.leb_spec 200 (Mag.status resp)), (Z.leb_spec (Mag.status resp) 299);
    cbn [andb negb].
  - destruct (Mag.payload resp) as [bytes|err] eqn:E.
    + apply (Spec.Shape_success resp bytes); try reflexivity; [lia | exact E |].
      cbn [Mag.body]. apply base64_decode_encode.
    + apply Spec.Shape_read_failure. left. split; [lia | exact E].
  - destruct (Mag.bodyText resp) as [txt|err] eqn:E.
    + apply Spec.Shape_upstream_error; [lia | exact E].
    + apply Spec.Shape_read_failure. right. split; [lia | exact E].
  - destruct (Mag.bodyText resp) as [txt|err] eqn:E.
    + apply Spec.Shape_upstream_error; [lia | exact E].
    + apply Spec.Shape_read_failure. right. split; [lia | exact E].
  - destruct (Mag.bodyText resp) as [txt|err] eqn:E.
    + apply Spec.Shape_upstream_error; [lia | exact E].
    + apply Spec.Shape_read_failure. right. split; [lia | exact E].
Qed.

(** ** The timers of the component *)

Lemma runCleanup_clears (s : Playback.State) :
  Spec.timer_invariant s ->
  Playback.runCleanup s
  = Playback.setRuntime (Playback.timerRef s) [] (Playback.effectDeps s)
      (Playback.effectCleanup s) (Playback.mounted s) s.
Proof.
  unfold Spec.timer_invariant, Playback.runCleanup.
  destruct s as [c a f p sp pf ref timers deps cleanup alive]; simpl.
  destruct cleanup.
  - intros (t & d & -> & -> & Hne & _). apply Z.eqb_neq in Hne. rewrite Hne.
    unfold Playback.setRuntime, Playback.clearInterval; simpl.
    now rewrite Z.eqb_refl.
  - now intros [-> _].
Qed.

Lemma Deps_eqb_eq (a b : Playback.Deps) : Playback.Deps_eqb a b = true <-> a = b.
Proof.
  destruct a as [p1 s1 c1], b as [p2 s2 c2]. unfold Playback.Deps_eqb; simpl.
  rewrite !andb_true_iff, !Z.eqb_eq, Bool.eqb_true_iff.
  split; [intros [[-> ->] ->]; reflexivity | intros [= -> -> ->]; auto].
Qed.

(** What a run of the effect, after the cleanup of the previous run, leaves
    behind. *)
Lemma runEffect_after_cleanup (fresh : positive) (s : Playback.State) :
  Spec.timer_invariant s ->
  Playback.mounted s = true ->
  let s' := Playback.runEffect fresh (Playback.runCleanup s) in
  Spec.timer_invariant s'
  /\ Playback.intervals s'
     = (if Playback.playing s then [Spec.timer_of fresh s] else []).
Proof.
  intros Hinv Hm. rewrite (runCleanup_clears s Hinv).
  destruct s as [c a f p sp pf ref timers deps cleanup alive]; simpl in *. subst alive.
  unfold Playback.runEffect, Spec.timer_invariant; simpl.
  destruct p; simpl; split; try reflexivity; [|auto].
  eexists _, _. repeat split; discriminate.
Qed.

Lemma timer_invariant_initial (utcHour : Z) :
  Spec.timer_invariant (Playback.initial utcHour).
Proof. unfold Spec.timer_invariant; simpl. auto. Qed.

(** No updater ever returns [undefined]: every event has a next state, and
    the invariant is kept. *)
Lemma step_timer_invariant (e : Playback.Event) (s : Playback.State) :
  Spec.timer_invariant s ->
  exists s', Playback.step e s = Some s' /\ Spec.timer_invariant s'.
Proof.
  intros Hinv.
  destruct e; cbn [Playback.step];
    try (destruct (Playback.mounted s) eqn:Hm; cbn [negb];
         (eexists; split; [reflexivity | exact Hinv])).
  - (* Commit *)
    destruct (Playback.mounted s) eqn:Hm; cbn [negb]; [|eauto].
    destruct (Playback.effectDeps s) as [d|] eqn:Hd.
    + destruct (Playback.Deps_eqb d (Playback.currentDeps s)); [eauto|].
      eexists; split; [reflexivity|]. now apply runEffect_after_cleanup.
    + eexists; split; [reflexivity|]. now apply runEffect_after_cleanup.
  - (* NextHour *)
    destruct (Playback.mounted s) eqn:Hm; cbn [negb]; [|eauto].
    rewrite nextUpdater_is_tickUpdater, tickUpdater_closed_form.
    eexists; split; [reflexivity | exact Hinv].
  - (* Tick *)
    destruct (List.find _ _) as [t|]; [|eauto].
    destruct (Playback.mounted s); [|eauto].
    rewrite tickUpdater_closed_form.
    eexists; split; [reflexivity | exact Hinv].
  - (* Unmount *)
    destruct (Playback.mounted s) eqn:Hm; cbn [negb]; [|eauto].
    eexists; split; [reflexivity|]. rewrite (runCleanup_clears s Hinv).
    unfold Spec.timer_invariant; simpl. auto.
Qed.

Lemma run_timer_invariant (events : list Playback.Event) (s : Playback.State) :
  Spec.timer_invariant s ->
  exists s', Playback.run events s = Some s' /\ Spec.timer_invariant s'.
Proof.
  revert s; induction events as [|e events IH]; intros s Hinv; simpl; [eauto|].
  destruct (step_timer_invariant e s Hinv) as (s1 & -> & Hinv1). simpl.
  now apply IH.
Qed.

Lemma timer_invariant_length (s : Playback.State) :
  Spec.timer_invariant s -> (length (Playback.intervals s) <= 1)%nat.
Proof.
  unfold Spec.timer_invariant. destruct (Playback.effectCleanup s).
  - intros (t & d & -> & _). simpl. lia.
  - intros [-> _]. simpl. lia.
Qed.

Lemma commit_intervals (fresh : positive) (s : Playback.State) :
  Spec.timer_invariant s ->
  exists s', Playback.step (Playback.Commit fresh) s = Some s'
    /\ Playback.intervals s'
       = (if Spec.effect_due s
          then (if Playback.playing s then [Spec.timer_of fresh s] else [])
          else Playback.intervals s).
Proof.
  intros Hinv. unfold Spec.effect_due. cbn [Playback.step].
  destruct (Playback.mounted s) eqn:Hm; cbn [negb andb]; [|eauto].
  destruct (Playback.effectDeps s) as [d|] eqn:Hd.
  - destruct (Playback.Deps_eqb d (Playback.currentDeps s)); cbn [negb]; [eauto|].
    eexists; split; [reflexivity|]. now apply runEffect_after_cleanup.
  - eexists; split; [reflexivity|]. now apply runEffect_after_cleanup.
Qed.

Lemma commit_count (fresh : positive) (s s' : Playback.State) :
  Spec.timer_invariant s ->
  Playback.step (Playback.Commit fresh) s = Some s' ->
  length (Playback.intervals s')
  = (if Playback.mounted s && Playback.playing s then 1 else 0)%nat.
Proof.
  intros Hinv. cbn [Playback.step].
  destruct (Playback.mounted s) eqn:Hm; cbn [negb andb].
  - assert (Hrun : length (Playback.intervals
                             (Playback.runEffect fresh (Playback.runCleanup s)))
                   = (if Playback.playing s then 1 else 0)%nat).
    { destruct (runEffect_after_cleanup fresh s Hinv Hm) as [_ ->].
      now destruct (Playback.playing s). }
    destruct (Playback.effectDeps s) as [d|] eqn:Hd; [|now intros [= <-]].
    destruct (Playback.Deps_eqb d (Playback.currentDeps s)) eqn:He; [|now intros [= <-]].
    intros [= <-]. apply Deps_eqb_eq in He. subst d.
    unfold Spec.timer_invariant in Hinv. rewrite Hd in Hinv.
    destruct (Playback.effectCleanup s).
    + destruct Hinv as (t & d & -> & _ & _ & [= <-] & Hp & _).
      cbn [Playback.currentDeps Playback.dep_playing] in Hp. now rewrite Hp.
    + destruct Hinv as [-> Hp].
      cbn [Playback.currentDeps Playback.dep_playing] in Hp. now rewrite Hp.
  - intros [= <-]. unfold Spec.timer_invariant in Hinv.
    destruct (Playback.effectCleanup s).
    + destruct Hinv as (t & d & _ & _ & _ & _ & _ & _ & _ & Hm'). congruence.
    + now destruct Hinv as [-> _].
Qed.

(** A firing timer advances the hour once, and only the one active timer
    can fire. *)
Lemma tick_once (id : Z) (s : Playback.State) :
  Spec.timer_invariant s ->
  exists s' : Playback.State,
    Playback.step (Playback.Tick id) s = Some s'
    /\ (Playback.fhr s' = Playback.fhr s
        \/ exists t : Playback.Timer,
             Playback.intervals s = [t] /\ Playback.handle t = id
             /\ App.tickUpdater (Playback.closedCycleHour t) (Playback.fhr s)
                = Some (Playback.fhr s')).
Proof.
  intros Hinv. cbn [Playback.step].
  assert (Hlen := timer_invariant_length s Hinv).
  assert (Hsame : exists s', Some s = Some s'
            /\ (Playback.fhr s' = Playback.fhr s
                \/ exists t : Playback.Timer,
                     Playback.intervals s = [t] /\ Playback.handle t = id
                     /\ App.tickUpdater (Playback.closedCycleHour t) (Playback.fhr s)
                        = Some (Playback.fhr s')))
    by (exists s; auto).
  destruct (Playback.intervals s) as [|t [|t' timers]] eqn:Hi;
    [exact Hsame | | simpl in Hlen; lia].
  cbn [List.find]. destruct (Z.eqb_spec (Playback.handle t) id) as [Hid|Hid];
    [|exact Hsame].
  destruct (Playback.mounted s); [|exact Hsame].
  rewrite tickUpdater_closed_form.
  eexists; split; [reflexivity|]. right. exists t.
  split; [reflexivity|]. split; [exact Hid | apply tickUpdater_closed_form].
Qed.

(** C9: in every state the component reaches, by any sequence of events
    from its first render, at most one repeating timer is active.  Whenever
    the effect runs again (after [playing], [speedMs] or [cycleHour]
    changed) the timer of the previous run is cleared first, so that after
    the commit the active timers are exactly the new one if [playing] holds
    and none otherwise; after any commit there is one timer when the
    mounted component is playing and none when it is not.  Starting to
    play, then changing the speed and the cycle without stopping leaves one
    timer, the last one set up; and when a timer fires, the hour advances
    once. *)
Theorem at_most_one_timer (utcHour : Z) (events : list Playback.Event) :
  exists s : Playback.State,
    Playback.run events (Playback.initial utcHour) = Some s
    /\ (length (Playback.intervals s) <= 1)%nat
    /\ (forall fresh : positive,
          exists s' : Playback.State,
            Playback.step (Playback.Commit fresh) s = Some s'
            /\ Playback.intervals s'
               = (if Spec.effect_due s
                  then (if Playback.playing s then [Spec.timer_of fresh s] else [])
                  else Playback.intervals s)
            /\ length (Playback.intervals s')
               = (if Playback.mounted s && Playback.playing s then 1 else 0)%nat)
    /\ (forall id : Z,
          exists s' : Playback.State,
            Playback.step (Playback.Tick id) s = Some s'
            /\ (Playback.fhr s' = Playback.fhr s
                \/ exists t : Playback.Timer,
                     Playback.intervals s = [t] /\ Playback.handle t = id
                     /\ App.tickUpdater (Playback.closedCycleHour t) (Playback.fhr s)
                        = Some (Playback.fhr s')))
    /\ option_map Playback.intervals
         (Playback.run
            [ Playback.Commit 1; Playback.TogglePlay; Playback.Commit 2;
              Playback.ChangeSpeed 300; Playback.Commit 3;
              Playback.SelectCycle 6; Playback.Commit 4 ]
            (Playback.initial 5))
       = Some [ {| Playback.handle := 4; Playback.closedCycleHour := 6;
                   Playback.delay := 300 |} ].
Proof.
  destruct (run_timer_invariant events (Playback.initial utcHour)
              (timer_invariant_initial utcHour)) as (s & Hrun & Hinv).
  exists s. split; [exact Hrun|]. split; [now apply timer_invariant_length|].
  split; [|split; [intros id; now apply tick_once | reflexivity]].
  intros fresh. destruct (commit_intervals fresh s Hinv) as (s' & Hstep & Hint).
  exists s'. split; [exact Hstep|]. split; [exact Hint|].
  now apply (commit_count fresh).
Qed.

(** * Further properties of the code *)

(** ** Numbers written and read back *)

Lemma digits_value_of_uint_acc (d : Decimal.uint) (acc : positive) :
  Text.digits_value (NilEmpty.string_of_uint d) (Z.pos acc)
  = Z.pos (Pos.of_uint_acc d acc).
Proof.
  revert acc; induction d; intros acc; cbn [NilEmpty.string_of_uint Pos.of_uint_acc];
    [reflexivity | cbn [Text.digits_value] ..];
    match goal with
    | |- context [Text.is_digit ?c] => change (Text.is_digit c) with true
    end; cbv iota; rewrite <- IHd; f_equal;
    unfold Text.digit_value; cbn [N_of_ascii N_of_digits Z.of_N N.add N.mul]; lia.
Qed.

Lemma digits_value_of_uint (d : Decimal.uint) :
  Text.digits_value (NilEmpty.string_of_uint d) 0 = Z.of_N (Pos.of_uint d).
Proof.
  induction d; cbn [NilEmpty.string_of_uint Pos.of_uint];
    [reflexivity | cbn [Text.digits_value] ..];
    match goal with
    | |- context [Text.is_digit ?c] => change (Text.is_digit c) with true
    end; cbv iota;
    [exact IHd | apply (digits_value_of_uint_acc d) ..].
Qed.

Lemma all_digits_string_of_uint (d : Decimal.uint) :
  Laws.all_chars Text.is_digit (NilEmpty.string_of_uint d) = true.
Proof. induction d; simpl; auto. Qed.

Lemma string_of_uint_nonnil (d : Decimal.uint) :
  d <> Decimal.Nil -> NilZero.string_of_uint d = NilEmpty.string_of_uint d.
Proof. destruct d; [congruence | reflexivity ..]. Qed.

(** The numeral of a positive number: digits only, at least one, and they
    read back as the number. *)
Lemma numeral_of_positive (p : positive) :
  let s := NilZero.string_of_uint (Pos.to_uint p) in
  Laws.all_chars Text.is_digit s = true
  /\ Text.leading_number s = Some (Z.pos p)
  /\ Text.trimStart s = s
  /\ Text.digits_value s 0 = Z.pos p.
Proof.
  intros s. subst s.
  rewrite string_of_uint_nonnil by apply DecimalPos.Unsigned.to_uint_nonnil.
  pose proof (digits_value_of_uint (Pos.to_uint p)) as Hv.
  rewrite DecimalPos.Unsigned.of_to in Hv. simpl Z.of_N in Hv.
  pose proof (all_digits_string_of_uint (Pos.to_uint p)) as Hd.
  pose proof (DecimalPos.Unsigned.to_uint_nonnil p) as Hn.
  destruct (Pos.to_uint p) eqn:E; [congruence | ..];
    (split; [exact Hd | split; [|split; [reflexivity | exact Hv]]]);
    unfold Text.leading_number; cbn [NilEmpty.string_of_uint];
    match goal with
    | |- context [Text.is_digit ?c] => change (Text.is_digit c) with true
    end; cbv iota; f_equal; exact Hv.
Qed.

Lemma parseInt_digit_start (c : ascii) (r : string) :
  Text.is_digit c = true ->
  Text.parseInt (String c r) = Some (Text.digits_value (String c r) 0).
Proof.
  destruct c as [[] [] [] [] [] [] [] []]; intros H; try discriminate H; reflexivity.
Qed.

Lemma digits_value_app (a b : string) (acc : Z) :
  Laws.all_chars Text.is_digit a = true ->
  Text.digits_value (a +:+ b) acc = Text.digits_value b (Text.digits_value a acc).
Proof.
  revert acc; induction a as [|c a IH]; intros acc; [reflexivity|].
  cbn [Laws.all_chars]. intros [Hc Ha]%andb_true_iff.
  rewrite app_cons. cbn [Text.digits_value]. rewrite Hc. now apply IH.
Qed.

Lemma digits_value_stop (rest : string) (acc : Z) :
  Text.leading_number rest = None -> Text.digits_value rest acc = acc.
Proof.
  destruct rest as [|c r]; [reflexivity|]. unfold Text.leading_number.
  cbn [Text.digits_value]. now destruct (Text.is_digit c).
Qed.

Lemma all_digits_zeros (k : nat) : Laws.all_chars Text.is_digit (Spec.zeros k) = true.
Proof. induction k; simpl; auto. Qed.

Lemma digits_value_zeros (k : nat) : Text.digits_value (Spec.zeros k) 0 = 0.
Proof. induction k; [reflexivity | exact IHk]. Qed.

(** The numeral of a number that is not negative. *)
Lemma numeral_of_nonnegative (z : Z) :
  0 <= z ->
  Laws.all_chars Text.is_digit (JS.String_num z) = true
  /\ Text.digits_value (JS.String_num z) 0 = z
  /\ exists c r, JS.String_num z = String c r /\ Text.is_digit c = true.
Proof.
  intros Hz. destruct z as [|p|p]; [| |lia].
  - repeat split. exists "0"%char, EmptyString. split; reflexivity.
  - destruct (numeral_of_positive p) as (Hd & _ & _ & Hv).
    change (JS.String_num (Z.pos p)) with (NilZero.string_of_uint (Pos.to_uint p)).
    split; [exact Hd|]. split; [exact Hv|].
    destruct (NilZero.string_of_uint (Pos.to_uint p)) as [|c r] eqn:E.
    + discriminate Hv.
    + exists c, r. split; [reflexivity|].
      cbn [Laws.all_chars] in Hd. now apply andb_true_iff in Hd.
Qed.

(** A zero-padded numeral followed by [rest] starts with a digit and reads
    as the number continued by the digits at the front of [rest]. *)
Lemma parseInt_padded (w : nat) (z : Z) (rest : string) :
  0 <= z ->
  Text.parseInt (JS.padStart w "0" (JS.String_num z) +:+ rest)
  = Some (Text.digits_value rest z).
Proof.
  intros Hz. destruct (numeral_of_nonnegative z Hz) as (Hd & Hv & c & r & Hs & Hc).
  assert (Hval : Text.digits_value (JS.padStart w "0" (JS.String_num z) +:+ rest) 0
                 = Text.digits_value rest z).
  { rewrite padStart_zeros, app_assoc.
    rewrite digits_value_app by apply all_digits_zeros.
    rewrite digits_value_zeros, digits_value_app by exact Hd. now rewrite Hv. }
  rewrite <- Hval. rewrite padStart_zeros.
  destruct (w - String.length (JS.String_num z))%nat as [|k].
  - rewrite app_nil_l, Hs, app_cons. now apply parseInt_digit_start.
  - cbn [Spec.zeros]. rewrite !app_cons. now apply parseInt_digit_start.
Qed.

Lemma parseInt_numeral (z : Z) : Text.parseInt (JS.String_num z) = Some z.
Proof.
  destruct z as [|p|p]; [reflexivity | |].
  - destruct (numeral_of_positive p) as (Hd & Hl & _ & Hv).
    change (JS.String_num (Z.pos p)) with (NilZero.string_of_uint (Pos.to_uint p)).
    destruct (NilZero.string_of_uint (Pos.to_uint p)) as [|c r] eqn:E; [discriminate Hl|].
    cbn [Laws.all_chars] in Hd. apply andb_true_iff in Hd as [Hc _].
    rewrite parseInt_digit_start by exact Hc. now rewrite Hv.
  - destruct (numeral_of_positive p) as (_ & Hl & _ & _).
    change (JS.String_num (Z.neg p))
      with (String "-" (NilZero.string_of_uint (Pos.to_uint p))).
    unfold Text.parseInt. cbn [Text.trimStart].
    change (Text.is_space "-") with false. cbv iota. now rewrite Hl.
Qed.

(** X1: [parseInt] reads back what [String] wrote, for every safe integer
    (magnitude at most 2^53 - 1, for which [String] writes all the digits);
    for a safe integer that is not negative it also reads back the
    zero-padded numeral, whatever follows it that is not a digit (so it
    reads the hour off the label of [zFmt]).  Padding a negative number puts
    the zeros in front of the sign, and the result reads as 0. *)
Theorem parseInt_String_num (z : Z) (w : nat) (rest : string) :
  Laws.safe_integer z = true ->
  Text.parseInt (JS.String_num z) = Some z
  /\ (0 <= z -> Text.leading_number rest = None ->
      Text.parseInt (JS.padStart w "0" (JS.String_num z) +:+ rest) = Some z)
  /\ (0 <= z -> Text.parseInt (App.zFmt z) = Some z)
  /\ (View.hourLabel (-5) = "0-5" /\ Text.parseInt (View.hourLabel (-5)) = Some 0).
Proof.
  intros _.
  split; [apply parseInt_numeral|]. split; [|split; [|split; reflexivity]].
  - intros Hz Hrest. rewrite parseInt_padded by exact Hz.
    now rewrite digits_value_stop.
  - intros Hz. unfold App.zFmt. now rewrite parseInt_padded.
Qed.

Lemma parseInt_String_num_witness :
  Text.parseInt (JS.String_num 7) = Some 7
  /\ Text.parseInt (JS.padStart 3 "0" (JS.String_num 7) +:+ "h") = Some 7
  /\ Text.parseInt (App.zFmt 7) = Some 7.
Proof.
  split; [|split].
  - apply (proj1 (parseInt_String_num 7 0 "" ltac:(reflexivity))).
  - apply (proj1 (proj2 (parseInt_String_num 7 3 "h" ltac:(reflexivity))));
      [lia | reflexivity].
  - apply (proj1 (proj2 (proj2 (parseInt_String_num 7 0 "" ltac:(reflexivity))))). lia.
Defined.

(** ** The URL builders determine the request *)

Lemma app_inj_r (a b t : string) : a +:+ t = b +:+ t -> a = b.
Proof.
  revert b; induction a as [|x a IH]; intros [|y b] H.
  - reflexivity.
  - apply (f_equal String.length) in H. rewrite app_nil_l, app_cons in H.
    cbn [String.length] in H. rewrite length_app in H. lia.
  - apply (f_equal String.length) in H. rewrite app_nil_l, app_cons in H.
    cbn [String.length] in H. rewrite length_app in H. lia.
  - rewrite !app_cons in H. injection H as -> H. f_equal. now apply IH.
Qed.

(** Two zero-padded numerals, each followed by a text that does not start
    with a digit, are equal only for equal numbers. *)
Lemma padded_numeral_inj (w : nat) (z z' : Z) (rest rest' : string) :
  0 <= z -> 0 <= z' ->
  Text.leading_number rest = None -> Text.leading_number rest' = None ->
  JS.padStart w "0" (JS.String_num z) +:+ rest
  = JS.padStart w "0" (JS.String_num z') +:+ rest' ->
  z = z'.
Proof.
  intros Hz Hz' Hr Hr' H. apply (f_equal Text.parseInt) in H.
  rewrite !parseInt_padded, !digits_value_stop in H by assumption. congruence.
Qed.

Lemma buildMagDirectUrl_with_default (sizeSuffix : string) (args : App.Args) :
  App.buildMagDirectUrl_with sizeSuffix args
  = "https://mag.ncep.noaa.gov/data/" +:+ default "hrrr" (App.model args)
      +:+ JS.padStart 2 "0" (JS.String_num (App.cycleHour args))
      +:+ "/" +:+ default "hrrr" (App.model args) +:+ "_"
      +:+ default App.AREA (App.area args) +:+ "_"
      +:+ JS.padStart 3 "0" (JS.String_num (App.fhr args))
      +:+ "00_" +:+ App.param args +:+ sizeSuffix +:+ ".gif".
Proof.
  unfold App.buildMagDirectUrl_with, App.buildMagFilename_with. cbv zeta.
  now rewrite !app_assoc.
Qed.

(** X2: for hours that are not negative, the proxy URL determines the whole
    request (model, area, cycle hour, forecast hour, parameter), and the
    direct URL determines the cycle hour, the forecast hour and the parameter
    of a request of given model and area: two different hours never share a
    URL. *)
Theorem url_builders_injective (sizeSuffix : string) (args args' : App.Args) :
  0 <= App.cycleHour args -> 0 <= App.fhr args ->
  0 <= App.cycleHour args' -> 0 <= App.fhr args' ->
  (App.buildMagProxyUrl args = App.buildMagProxyUrl args' ->
   default "hrrr" (App.model args) = default "hrrr" (App.model args')
   /\ default App.AREA (App.area args) = default App.AREA (App.area args')
   /\ App.cycleHour args = App.cycleHour args'
   /\ App.fhr args = App.fhr args'
   /\ App.param args = App.param args')
  /\ (default "hrrr" (App.model args) = default "hrrr" (App.model args') ->
      default App.AREA (App.area args) = default App.AREA (App.area args') ->
      App.buildMagDirectUrl_with sizeSuffix args
      = App.buildMagDirectUrl_with sizeSuffix args' ->
      App.cycleHour args = App.cycleHour args'
      /\ App.fhr args = App.fhr args'
      /\ App.param args = App.param args').
Proof.
  intros Hc Hf Hc' Hf'. split.
  - intros H. unfold App.buildMagProxyUrl in H. cbv zeta in H.
    do 2 apply String.app_inj in H. apply (f_equal JS.parse_urlencoded) in H.
    rewrite !parse_urlencoded_toString in H. unfold App.proxyQuery in H.
    injection H as Hm Ha Hcy Hfh Hp.
    rewrite <- (app_nil_r (JS.padStart 2 _ _)) in Hcy.
    rewrite <- (app_nil_r (JS.padStart 3 _ _)) in Hfh.
    rewrite <- (app_nil_r (JS.padStart 2 "0" (JS.String_num (App.cycleHour args')))) in Hcy.
    rewrite <- (app_nil_r (JS.padStart 3 "0" (JS.String_num (App.fhr args')))) in Hfh.
    apply padded_numeral_inj in Hcy, Hfh; auto.
  - intros Hm Ha H. rewrite !buildMagDirectUrl_with_default in H.
    rewrite <- Hm, <- Ha in H.
    apply String.app_inj in H. apply String.app_inj in H.
    assert (Hcy : App.cycleHour args = App.cycleHour args').
    { eapply padded_numeral_inj; [| | | | exact H]; auto. }
    rewrite <- Hcy in H. do 6 apply String.app_inj in H.
    assert (Hfh : App.fhr args = App.fhr args').
    { apply (f_equal Text.parseInt) in H. rewrite !parseInt_padded in H by assumption.
      cbn [Text.digits_value append] in H.
      change (Text.is_digit "0") with true in H. change (Text.is_digit "_") with false in H.
      cbv iota in H. change (Text.digit_value "0") with 0 in H. injection H as H. lia. }
    rewrite <- Hfh in H. do 2 apply String.app_inj in H.
    rewrite <- !app_assoc in H. do 2 apply app_inj_r in H. auto.
Qed.

Lemma url_builders_injective_witness :
  let a := {| App.model := None; App.area := None; App.cycleHour := 12;
              App.fhr := 3; App.param := "ceiling" |} in
  let a' := {| App.model := Some "hrrr"; App.area := Some "conus";
               App.cycleHour := 6 + 6; App.fhr := 3; App.param := "ceiling" |} in
  App.buildMagProxyUrl a = App.buildMagProxyUrl a'
  /\ App.cycleHour a = App.cycleHour a' /\ App.fhr a = App.fhr a'.
Proof.
  intros a a'.
  assert (H : App.buildMagProxyUrl a = App.buildMagProxyUrl a') by reflexivity.
  split; [exact H|].
  destruct (proj1 (url_builders_injective "" a a'
                     ltac:(simpl; lia) ltac:(simpl; lia) ltac:(simpl; lia)
                     ltac:(simpl; lia)) H)
    as (_ & _ & Hc & Hf & _).
  split; [exact Hc | exact Hf].
Defined.

(** ** What reaches the relay *)

Lemma all_chars_app (P : ascii -> bool) (a b : string) :
  Laws.all_chars P (a +:+ b) = Laws.all_chars P a && Laws.all_chars P b.
Proof.
  induction a as [|c a IH]; [reflexivity|].
  rewrite app_cons. simpl. rewrite IH. now rewrite andb_assoc.
Qed.

Lemma proxy_url_char_urlencode_char (c : ascii) :
  Laws.all_chars Laws.proxy_url_char (JS.urlencode_char c) = true.
Proof. destruct c as [[] [] [] [] [] [] [] []]; reflexivity. Qed.

Lemma proxy_url_char_urlencode (s : string) :
  Laws.all_chars Laws.proxy_url_char (JS.urlencode s) = true.
Proof.
  induction s as [|c s IH]; [reflexivity|]. cbn [JS.urlencode].
  now rewrite all_chars_app, proxy_url_char_urlencode_char, IH.
Qed.

Lemma proxy_url_char_toString (qs : JS.URLSearchParams) :
  Laws.all_chars Laws.proxy_url_char (JS.URLSearchParams_toString qs) = true.
Proof.
  unfold JS.URLSearchParams_toString.
  induction qs as [|kv qs IH]; [reflexivity|].
  assert (Hkv : Laws.all_chars Laws.proxy_url_char (JS.serialize_pair kv) = true).
  { unfold JS.serialize_pair. now rewrite !all_chars_app, !proxy_url_char_urlencode. }
  destruct qs as [|kv' qs]; [exact Hkv|].
  change (String.concat "&" (map JS.serialize_pair (kv :: kv' :: qs)))
    with (JS.serialize_pair kv
            +:+ "&" +:+ String.concat "&" (map JS.serialize_pair (kv' :: qs))).
  now rewrite !all_chars_app, Hkv, IH.
Qed.

Lemma all_chars_free_of (P : ascii -> bool) (c : ascii) (s : string) :
  P c = false -> Laws.all_chars P s = true -> Spec.free_of c s = true.
Proof.
  intros Hc. induction s as [|x s IH]; [reflexivity|]. simpl.
  intros [Hx Hs]%andb_true_iff. rewrite IH by exact Hs.
  destruct (Ascii.eqb_spec x c) as [->|]; [congruence | reflexivity].
Qed.

(** X3: whatever the strings of a request are, its proxy URL is written
    with letters, digits and [* - . _ % + / ? & =] only: it has no space, no
    [#] and no character outside ASCII. *)
Theorem proxy_url_is_plain (args : App.Args) :
  Laws.all_chars Laws.proxy_url_char (App.buildMagProxyUrl args) = true
  /\ Spec.free_of " " (App.buildMagProxyUrl args) = true
  /\ Spec.free_of "#" (App.buildMagProxyUrl args) = true
  /\ Laws.all_chars (fun c => (N_of_ascii c <? 128)%N) (App.buildMagProxyUrl args) = true.
Proof.
  assert (H : Laws.all_chars Laws.proxy_url_char (App.buildMagProxyUrl args) = true).
  { unfold App.buildMagProxyUrl. cbv zeta.
    now rewrite !all_chars_app, proxy_url_char_toString. }
  split; [exact H|].
  split; [now apply (all_chars_free_of Laws.proxy_url_char)|].
  split; [now apply (all_chars_free_of Laws.proxy_url_char)|].
  revert H. generalize (App.buildMagProxyUrl args) as s.
  induction s as [|c s IH]; [reflexivity|]. simpl.
  intros [Hc Hs]%andb_true_iff. rewrite IH by exact Hs.
  rewrite andb_true_r. revert Hc.
  destruct c as [[] [] [] [] [] [] [] []]; intros Hc; try discriminate Hc; reflexivity.
Qed.

(** X4: the relay receives every parameter of a request made with the proxy
    URL exactly as the client gave it, whatever characters it contains: the
    writing and the reading of the query string cancel. *)
Theorem proxy_parameters_delivered (args : App.Args) :
  let p := default ∅ (Mag.queryStringParameters
                        (Mag.event_of_url (App.buildMagProxyUrl args))) in
  p !! "model" = Some (default "hrrr" (App.model args))
  /\ p !! "area" = Some (default App.AREA (App.area args))
  /\ p !! "cycle" = Some (JS.padStart 2 "0" (JS.String_num (App.cycleHour args)))
  /\ p !! "fhr" = Some (JS.padStart 3 "0" (JS.String_num (App.fhr args)))
  /\ p !! "param" = Some (App.param args)
  /\ JS.urldecode (JS.urlencode (App.param args)) = App.param args.
Proof.
  intros p. subst p. rewrite event_of_buildMagProxyUrl.
  cbn [Mag.queryStringParameters]. rewrite to_dictionary_proxyQuery.
  change (default ∅ (Some ?m)) with m.
  repeat split;
    repeat first [ rewrite lookup_insert_eq
                 | rewrite lookup_insert_ne by discriminate ];
    try reflexivity.
  apply urldecode_urlencode.
Qed.

(** ** The relay and its parameters *)

Lemma or_else_insert_empty (p : gmap string string) (k j d : string) :
  JS.or_else (<[ k := "" ]> p !! j) d = JS.or_else (delete k p !! j) d.
Proof.
  destruct (decide (k = j)) as [->|Hne].
  - now rewrite lookup_insert_eq, lookup_delete_eq.
  - now rewrite lookup_insert_ne, lookup_delete_ne by exact Hne.
Qed.

(** X5: the relay reads the six parameters model, area, cycle, fhr, param
    and size and nothing else: a parameter of any other name changes
    nothing.  An empty parameter counts as a missing one, and a request
    without query as a request with an empty query. *)
Theorem handler_ignores (p : gmap string string) (k v : string) :
  (k ∉ Laws.handler_keys ->
   Mag.fields {| Mag.queryStringParameters := Some (<[ k := v ]> p) |}
   = Mag.fields {| Mag.queryStringParameters := Some p |})
  /\ Mag.fields {| Mag.queryStringParameters := Some (<[ k := "" ]> p) |}
     = Mag.fields {| Mag.queryStringParameters := Some (delete k p) |}
  /\ Mag.fields {| Mag.queryStringParameters := Some ∅ |}
     = Mag.fields {| Mag.queryStringParameters := None |}.
Proof.
  split; [|split; [|reflexivity]].
  - intros Hk. unfold Laws.handler_keys in Hk. rewrite !not_elem_of_cons in Hk.
    destruct Hk as (H1 & H2 & H3 & H4 & H5 & H6 & _).
    unfold Mag.fields. cbn [Mag.queryStringParameters].
    change (default ∅ (Some ?m)) with m.
    now rewrite !lookup_insert_ne by assumption.
  - unfold Mag.fields. cbn [Mag.queryStringParameters].
    change (default ∅ (Some ?m)) with m.
    now rewrite !or_else_insert_empty.
Qed.

Lemma handler_ignores_witness :
  Mag.fields {| Mag.queryStringParameters := Some (<[ "debug" := "1" ]> ∅) |}
  = Mag.fields {| Mag.queryStringParameters := Some ∅ |}.
Proof.
  apply (proj1 (handler_ignores ∅ "debug" "1")).
  unfold Laws.handler_keys. rewrite !not_elem_of_cons.
  repeat split; try discriminate. apply not_elem_of_nil.
Defined.

Lemma toLowerCase_idempotent (s : string) :
  JS.toLowerCase (JS.toLowerCase s) = JS.toLowerCase s.
Proof. apply toLowerCase_fixed, toLowerCase_all_lowercase. Qed.

Lemma toLowerCase_empty (s : string) : JS.toLowerCase s = "" <-> s = "".
Proof. destruct s; simpl; split; congruence. Qed.

Lemma toLowerCase_or_else (v d : string) :
  JS.toLowerCase (JS.or_else (Some (JS.toLowerCase v)) d)
  = JS.toLowerCase (JS.or_else (Some v) d).
Proof.
  unfold JS.or_else.
  destruct (String.eqb_spec v "") as [->|Hv]; [reflexivity|].
  destruct (String.eqb_spec (JS.toLowerCase v) "") as [He|_].
  - apply (proj1 (toLowerCase_empty v)) in He. congruence.
  - apply toLowerCase_idempotent.
Qed.

(** X6: the relay does not distinguish upper and lower case in model, area
    and param: lowercasing the value of one of them in a request does not
    change the URL it fetches. *)
Theorem handler_case_insensitive (p : gmap string string) (k v : string) :
  k ∈ [ "model"; "area"; "param" ] ->
  Mag.remote {| Mag.queryStringParameters := Some (<[ k := JS.toLowerCase v ]> p) |}
  = Mag.remote {| Mag.queryStringParameters := Some (<[ k := v ]> p) |}.
Proof.
  intros Hk. unfold Mag.remote. f_equal.
  assert (Hf : Mag.fields {| Mag.queryStringParameters := Some (<[ k := JS.toLowerCase v ]> p) |}
               = Mag.fields {| Mag.queryStringParameters := Some (<[ k := v ]> p) |}).
  { unfold Mag.fields. cbn [Mag.queryStringParameters].
    change (default ∅ (Some ?m)) with m.
    rewrite !elem_of_cons in Hk. destruct Hk as [-> | [-> | [-> | Hk]]];
      [| | | now apply elem_of_nil in Hk];
      repeat first [ rewrite lookup_insert_eq
                   | rewrite lookup_insert_ne by discriminate ];
      now rewrite toLowerCase_or_else. }
  now rewrite Hf.
Qed.

Lemma handler_case_insensitive_witness :
  Mag.remote {| Mag.queryStringParameters := Some (<[ "model" := "hrrr" ]> ∅) |}
  = Mag.remote {| Mag.queryStringParameters := Some (<[ "model" := "HRRR" ]> ∅) |}.
Proof.
  apply (handler_case_insensitive ∅ "model" "HRRR"). apply elem_of_cons. now left.
Defined.

Lemma or_else_default_nonempty (a : option string) (d : string) :
  d <> "" -> JS.or_else a d <> "".
Proof.
  intros Hd. unfold JS.or_else. destruct a as [s|]; [|exact Hd].
  now destruct (String.eqb_spec s "").
Qed.

Lemma or_else_self (s : string) : JS.or_else (Some s) "" = s.
Proof. unfold JS.or_else. now destruct (String.eqb_spec s "") as [->|]. Qed.

(** X7: the normalisation of the relay is idempotent: a request that
    carries the six fields computed for some request is given the same six
    fields, hence the same remote URL. *)
Theorem handler_fields_idempotent (ev : Mag.Event) :
  Mag.fields (Laws.event_of_fields (Mag.fields ev)) = Mag.fields ev
  /\ Mag.remote (Laws.event_of_fields (Mag.fields ev)) = Mag.remote ev.
Proof.
  assert (H : Mag.fields (Laws.event_of_fields (Mag.fields ev)) = Mag.fields ev).
  { unfold Laws.event_of_fields. unfold Mag.fields at 1.
    cbn [Mag.queryStringParameters]. change (default ∅ (Some ?m)) with m.
    repeat first [ rewrite lookup_insert_eq
                 | rewrite lookup_insert_ne by discriminate ].
    unfold Mag.fields. cbn [Mag.model Mag.area Mag.cycle Mag.fhr Mag.param Mag.size].
    set (p := default ∅ (Mag.queryStringParameters ev)).
    rewrite !(or_else_Some (JS.toLowerCase _))
      by (intros He; apply (proj1 (toLowerCase_empty _)) in He; revert He;
          apply or_else_default_nonempty; discriminate).
    rewrite !(or_else_Some (JS.padStart _ _ _)) by (apply padStart_nonempty; lia).
    now rewrite !toLowerCase_idempotent, !padStart_idempotent, or_else_self. }
  split; [exact H|]. unfold Mag.remote. now rewrite H.
Qed.

(** X8: the answer of the relay has status 200 exactly when the remote host
    answered with a 2xx status and its body could be read; exactly then it
    carries the Base64 flag, and exactly then it has headers.  The relay
    never answers with a status from 201 to 299. *)
Theorem handler_status (fetch : Mag.Fetch) (ev : Mag.Event) :
  let r := Mag.handler fetch ev in
  let outcome := fetch (Mag.remote ev) Mag.requestHeaders in
  (Mag.statusCode r = 200 <-> Laws.upstream_success outcome = true)
  /\ (Mag.isBase64Encoded r = Some true <-> Laws.upstream_success outcome = true)
  /\ (Mag.headers r = None <-> Laws.upstream_success outcome = false)
  /\ ~ (201 <= Mag.statusCode r <= 299).
Proof.
  intros r outcome. subst r outcome. unfold Mag.handler, Laws.upstream_success.
  destruct (fetch (Mag.remote ev) Mag.requestHeaders) as [resp|err];
    unfold bindC, Mag.ok, Mag.text, Mag.arrayBuffer, bindC.
  - destruct (Z.leb_spec 200 (Mag.status resp)), (Z.leb_spec (Mag.status resp) 299);
      cbn [andb negb];
      destruct (Mag.payload resp) as [bytes|err], (Mag.bodyText resp) as [txt|err'];
      cbn [Mag.statusCode Mag.isBase64Encoded Mag.headers];
      repeat split; intros; try discriminate; try reflexivity; try lia.
  - cbn [Mag.statusCode Mag.isBase64Encoded Mag.headers].
    repeat split; intros; try discriminate; try reflexivity; try lia.
Qed.

Lemma base64_alphabet_char (s : JS.sextet) : Laws.base64_alphabet (JS.base64_char s) = true.
Proof. destruct s as [[[[[[] []] []] []] []] []]; reflexivity. Qed.

(** X9: the Base64 body of [n] bytes has 4 characters for every 3 bytes
    begun, is written with letters, digits, [+], [/] and [=] only, and two
    different byte sequences never share a body. *)
Theorem base64_encode_shape (l l' : list Byte.byte) :
  String.length (JS.base64_encode l) = (4 * ((length l + 2) / 3))%nat
  /\ Laws.all_chars Laws.base64_alphabet (JS.base64_encode l) = true
  /\ (JS.base64_encode l = JS.base64_encode l' -> l = l').
Proof.
  split; [|split].
  - induction l as [|x|x y|x y z l IH] using list_ind3.
    + reflexivity.
    + cbn [JS.base64_encode].
      destruct (JS.bits x) as [[[[[[[x0 x1] x2] x3] x4] x5] x6] x7]. reflexivity.
    + cbn [JS.base64_encode].
      destruct (JS.bits x) as [[[[[[[x0 x1] x2] x3] x4] x5] x6] x7].
      destruct (JS.bits y) as [[[[[[[y0 y1] y2] y3] y4] y5] y6] y7]. reflexivity.
    + cbn [JS.base64_encode].
      destruct (JS.bits x) as [[[[[[[x0 x1] x2] x3] x4] x5] x6] x7].
      destruct (JS.bits y) as [[[[[[[y0 y1] y2] y3] y4] y5] y6] y7].
      destruct (JS.bits z) as [[[[[[[z0 z1] z2] z3] z4] z5] z6] z7].
      cbn [String.length length]. rewrite IH.
      replace (S (S (S (length l))) + 2)%nat with (length l + 2 + 1 * 3)%nat by lia.
      rewrite Nat.div_add by lia. lia.
  - induction l as [|x|x y|x y z l IH] using list_ind3.
    + reflexivity.
    + cbn [JS.base64_encode].
      destruct (JS.bits x) as [[[[[[[x0 x1] x2] x3] x4] x5] x6] x7].
      cbn [Laws.all_chars]. now rewrite !base64_alphabet_char.
    + cbn [JS.base64_encode].
      destruct (JS.bits x) as [[[[[[[x0 x1] x2] x3] x4] x5] x6] x7].
      destruct (JS.bits y) as [[[[[[[y0 y1] y2] y3] y4] y5] y6] y7].
      cbn [Laws.all_chars]. now rewrite !base64_alphabet_char.
    + cbn [JS.base64_encode].
      destruct (JS.bits x) as [[[[[[[x0 x1] x2] x3] x4] x5] x6] x7].
      destruct (JS.bits y) as [[[[[[[y0 y1] y2] y3] y4] y5] y6] y7].
      destruct (JS.bits z) as [[[[[[[z0 z1] z2] z3] z4] z5] z6] z7].
      cbn [Laws.all_chars]. now rewrite !base64_alphabet_char, IH.
  - intros H. apply (f_equal Spec.base64_decode) in H.
    rewrite !base64_decode_encode in H. congruence.
Qed.

Lemma base64_encode_shape_witness :
  list_byte_of_string "Man" = list_byte_of_string "Man".
Proof.
  apply (proj2 (proj2 (base64_encode_shape (list_byte_of_string "Man")
                         (list_byte_of_string "Man")))).
  reflexivity.
Defined.

(** ** Stepping through the hours *)

Lemma elem_of_listHoursForCycle (c x : Z) :
  x ∈ App.listHoursForCycle c <-> 0 <= x <= Spec.max_hour c.
Proof.
  rewrite listHoursForCycle_consecutive, elem_of_consecutive.
  pose proof (max_hour_cases c). lia.
Qed.

(** X10: an advance always lands on a valid hour of the cycle, also from an
    hour that is not valid; stepping back from a valid hour gives a valid
    hour; "Prev" undoes "Next" except at the last hour, and "Next" undoes
    "Prev" except at hour 0. *)
Theorem stepping_keeps_valid (c f : Z) :
  let l := App.listHoursForCycle c in
  (exists g, App.tickUpdater c f = Some g /\ g ∈ l)
  /\ (f ∈ l -> App.prevUpdater f ∈ l)
  /\ (f ∈ l -> f <> Spec.max_hour c ->
      exists g, App.nextUpdater c f = Some g /\ App.prevUpdater g = f)
  /\ (f ∈ l -> f <> 0 -> App.nextUpdater c (App.prevUpdater f) = Some f).
Proof.
  intros l. subst l. pose proof (max_hour_cases c) as Hm.
  change App.nextUpdater with App.tickUpdater.
  rewrite !tickUpdater_closed_form.
  rewrite !elem_of_listHoursForCycle. unfold App.prevUpdater.
  split; [|split; [|split]].
  - eexists; split; [reflexivity|]. rewrite elem_of_listHoursForCycle. Z_cases.
  - lia.
  - intros Hf Hne. eexists; split; [reflexivity|]. Z_cases.
  - intros Hf Hne. f_equal. Z_cases.
Qed.

Lemma stepping_keeps_valid_witness :
  App.prevUpdater 5 ∈ App.listHoursForCycle 3
  /\ App.nextUpdater 3 (App.prevUpdater 5) = Some 5.
Proof.
  assert (H : 5 ∈ App.listHoursForCycle 3).
  { apply elem_of_listHoursForCycle. change (Spec.max_hour 3) with 18. lia. }
  split.
  - apply (proj1 (proj2 (stepping_keeps_valid 3 5))). exact H.
  - apply (proj2 (proj2 (proj2 (stepping_keeps_valid 3 5)))); [exact H | lia].
Defined.

Lemma advance_n_valid (c : Z) (k : nat) (f : Z) :
  0 <= f <= Spec.max_hour c ->
  Laws.advance_n c k f = Some ((f + Z.of_nat k) mod (Spec.max_hour c + 1)).
Proof.
  pose proof (max_hour_cases c) as Hm.
  revert f; induction k as [|k IH]; intros f Hf.
  - cbn [Laws.advance_n]. f_equal. rewrite Z.add_0_r. symmetry. apply Z.mod_small. lia.
  - cbn [Laws.advance_n]. rewrite tickUpdater_closed_form. cbn [mbind option_bind].
    destruct (Z.ltb_spec f (Spec.max_hour c)) as [Hlt|Hge];
      replace (0 <=? f) with true by lia; cbn [andb].
    + rewrite IH by lia. f_equal. f_equal. lia.
    + rewrite IH by lia. f_equal.
      replace (f + Z.of_nat (S k)) with (Z.of_nat k + 1 * (Spec.max_hour c + 1)) by lia.
      rewrite Z.mod_add by lia. f_equal.
Qed.

(** X11: playing from a valid hour [f], [k] advances lead to the hour
    [(f + k) mod (max + 1)]: the loop has period [max + 1] (49 or 19
    advances bring the hour back) and reaches every valid hour of the
    cycle. *)
Theorem advance_n_cycle (c : Z) (k : nat) (f g : Z) :
  0 <= f <= Spec.max_hour c ->
  Laws.advance_n c k f = Some ((f + Z.of_nat k) mod (Spec.max_hour c + 1))
  /\ Laws.advance_n c (Z.to_nat (Spec.max_hour c + 1)) f = Some f
  /\ (g ∈ App.listHoursForCycle c ->
      exists n : nat, Z.of_nat n <= Spec.max_hour c /\ Laws.advance_n c n f = Some g).
Proof.
  intros Hf. pose proof (max_hour_cases c) as Hm.
  split; [now apply advance_n_valid|]. split.
  - rewrite advance_n_valid by exact Hf. f_equal.
    replace (f + Z.of_nat (Z.to_nat (Spec.max_hour c + 1)))
      with (f + 1 * (Spec.max_hour c + 1)) by lia.
    rewrite Z.mod_add by lia. apply Z.mod_small. lia.
  - rewrite elem_of_listHoursForCycle. intros Hg.
    exists (Z.to_nat ((g - f) mod (Spec.max_hour c + 1))).
    pose proof (Z.mod_pos_bound (g - f) (Spec.max_hour c + 1) ltac:(lia)) as Hb.
    split; [lia|]. rewrite advance_n_valid by exact Hf. f_equal.
    rewrite Z2Nat.id by lia. rewrite Zplus_mod_idemp_r.
    replace (f + (g - f)) with g by lia. apply Z.mod_small. lia.
Qed.

Lemma advance_n_cycle_witness :
  Laws.advance_n 3 19 5 = Some 5
  /\ exists n : nat, Z.of_nat n <= Spec.max_hour 3 /\ Laws.advance_n 3 n 5 = Some 2.
Proof.
  assert (H : 0 <= 5 <= Spec.max_hour 3) by (change (Spec.max_hour 3) with 18; lia).
  split.
  - exact (proj1 (proj2 (advance_n_cycle 3 0 5 2 H))).
  - apply (proj2 (proj2 (advance_n_cycle 3 0 5 2 H))).
    apply elem_of_listHoursForCycle. change (Spec.max_hour 3) with 18. lia.
Defined.

(** ** The parameter menu *)

Lemma trimEnd_empty (s : string) :
  Text.trimEnd s = "" <-> Laws.all_chars Text.is_space s = true.
Proof.
  induction s as [|c s IH]; [simpl; tauto|].
  cbn [Text.trimEnd Laws.all_chars].
  destruct (Text.is_space c); cbn [andb].
  - destruct (String.eqb_spec (Text.trimEnd s) "") as [He|Hne].
    + split; [intros _; now apply IH | reflexivity].
    + split; [discriminate | intros H; apply IH in H; contradiction].
  - split; discriminate.
Qed.

Lemma all_space_trimStart (s : string) :
  Laws.all_chars Text.is_space (Text.trimStart s) = Laws.all_chars Text.is_space s.
Proof.
  induction s as [|c s IH]; [reflexivity|]. cbn [Text.trimStart].
  destruct (Text.is_space c) eqn:E; cbn [Laws.all_chars]; rewrite E; [exact IH | reflexivity].
Qed.

(** The trimmed filter is empty exactly when the filter is white space. *)
Lemma trim_empty (s : string) :
  String.eqb (Text.trim s) "" = Laws.all_chars Text.is_space s.
Proof.
  unfold Text.trim. rewrite <- all_space_trimStart.
  destruct (String.eqb_spec (Text.trimEnd (Text.trimStart s)) "") as [H|H];
    destruct (Laws.all_chars Text.is_space (Text.trimStart s)) eqn:E; try reflexivity.
  - apply trimEnd_empty in H. congruence.
  - apply trimEnd_empty in E. contradiction.
Qed.

Lemma is_space_lower_ascii (c : ascii) : Text.is_space (JS.lower_ascii c) = Text.is_space c.
Proof. destruct c as [[] [] [] [] [] [] [] []]; reflexivity. Qed.

Lemma all_space_toLowerCase (s : string) :
  Laws.all_chars Text.is_space (JS.toLowerCase s) = Laws.all_chars Text.is_space s.
Proof.
  induction s as [|c s IH]; [reflexivity|]. simpl.
  now rewrite is_space_lower_ascii, IH.
Qed.

Lemma filteredGroups_unfold (f : string) :
  Menu.filteredGroups f
  = if Laws.all_chars Text.is_space f then App.PARAM_GROUPS
    else List.filter (fun g => 0 <? Z.of_nat (length (snd g)))
           (map (fun g => (fst g, List.filter (Menu.matches (JS.toLowerCase f)) (snd g)))
              App.PARAM_GROUPS).
Proof. unfold Menu.filteredGroups. now rewrite trim_empty. Qed.

Lemma in_filteredGroups (f name : string) (items : list App.ParamItem) :
  Laws.all_chars Text.is_space f = false ->
  In (name, items) (Menu.filteredGroups f)
  <-> items <> []
      /\ exists all, In (name, all) App.PARAM_GROUPS
                     /\ items = List.filter (Menu.matches (JS.toLowerCase f)) all.
Proof.
  intros Hf. rewrite filteredGroups_unfold, Hf, filter_In, in_map_iff.
  cbn [snd]. split.
  - intros [([name' all] & Heq & Hin) Hlen]. cbn [fst snd] in Heq.
    injection Heq as <- <-. split.
    + intros He. rewrite He in Hlen. discriminate.
    + now exists all.
  - intros [Hne (all & Hin & ->)]. split.
    + exists (name, all). split; [reflexivity | exact Hin].
    + destruct (List.filter _ all); [congruence | simpl; lia].
Qed.

(** Every key of the filtered menu is a key of the catalog. *)
Lemma menu_keys_in_catalog (f k : string) :
  In k (concat (map (fun g => map App.key (snd g)) (Menu.filteredGroups f))) ->
  In k App.catalog_keys.
Proof.
  unfold App.catalog_keys. rewrite !in_concat.
  intros (l & Hl & Hk). apply in_map_iff in Hl as ([name items] & <- & Hg).
  cbn [snd] in Hk.
  destruct (Laws.all_chars Text.is_space f) eqn:Hf.
  - rewrite filteredGroups_unfold, Hf in Hg.
    exists (map App.key items). split; [|exact Hk].
    apply in_map_iff. now exists (name, items).
  - apply in_filteredGroups in Hg as [_ (all & Hall & ->)]; [|exact Hf].
    exists (map App.key all). split.
    + apply in_map_iff. now exists (name, all).
    + apply in_map_iff in Hk as (it & <- & Hit). apply filter_In in Hit as [Hit _].
      now apply in_map.
Qed.

(** X12: for a filter of ASCII characters: a filter of white space only
    (also the empty one) shows the whole catalog; any other filter shows, in
    the order of the catalog, each group reduced to the items whose
    lowercased label or key contains the lowercased filter, and leaves out
    the groups left without item.  Whatever the filter, the menu never shows
    a key that is not in the catalog.  White space around the filter is not
    removed before matching: [" vis"] finds nothing where ["vis"] finds the
    visibility. *)
Theorem filteredGroups_spec (f name : string) (items : list App.ParamItem) :
  (Laws.ascii_only f = true -> Laws.all_chars Text.is_space f = true ->
   Menu.filteredGroups f = App.PARAM_GROUPS)
  /\ (Laws.ascii_only f = true -> Laws.all_chars Text.is_space f = false ->
      (In (name, items) (Menu.filteredGroups f)
       <-> items <> []
           /\ exists all, In (name, all) App.PARAM_GROUPS
                /\ items = List.filter
                             (fun it =>
                                Text.includes (JS.toLowerCase (App.label it)) (JS.toLowerCase f)
                                || Text.includes (JS.toLowerCase (App.key it)) (JS.toLowerCase f))
                             all))
  /\ (Laws.ascii_only f = true -> Laws.all_chars Text.is_space f = false ->
      Menu.filteredGroups f
      = List.filter (fun g => negb (Nat.eqb (length (snd g)) 0))
          (map (fun g => (fst g, List.filter (Menu.matches (JS.toLowerCase f)) (snd g)))
             App.PARAM_GROUPS))
  /\ (forall k, In k (concat (map (fun g => map App.key (snd g)) (Menu.filteredGroups f))) ->
                In k App.catalog_keys)
  /\ Menu.filteredGroups " vis" = []
  /\ Menu.filteredGroups "vis"
     = [ ("Aviation (priority)", [ {| App.key := "vis"; App.label := "Visibility" |} ]) ].
Proof.
  split; [|split; [|split; [|split; [|split; reflexivity]]]].
  - intros _ Hf. now rewrite filteredGroups_unfold, Hf.
  - intros _ Hf. now apply in_filteredGroups.
  - intros _ Hf. rewrite filteredGroups_unfold, Hf. apply filter_ext.
    intros [n its]. cbn [snd]. destruct its; reflexivity.
  - intros k. apply menu_keys_in_catalog.
Qed.

Lemma filteredGroups_spec_witness :
  Menu.filteredGroups "  " = App.PARAM_GROUPS
  /\ In ("Upper Air", [ {| App.key := "300_wnd"; App.label := "300 mb Wind" |} ])
       (Menu.filteredGroups "WND").
Proof.
  split.
  - apply (proj1 (filteredGroups_spec "  " "" [])); reflexivity.
  - apply (proj1 (proj2 (filteredGroups_spec "WND" "Upper Air"
                           [ {| App.key := "300_wnd"; App.label := "300 mb Wind" |} ])));
      [reflexivity | reflexivity |].
    split; [discriminate|].
    exists [ {| App.key := "700_rh_ht"; App.label := "700 mb RH/Height" |};
             {| App.key := "850_temp_ht"; App.label := "850 mb Temp/Height" |};
             {| App.key := "300_wnd"; App.label := "300 mb Wind" |} ].
    split; [|reflexivity]. do 3 right. left. reflexivity.
Defined.

(** X13: the search does not distinguish upper and lower case in the
    filter: two filters with the same lowercase form show the same menu. *)
Theorem filteredGroups_case_insensitive (f f' : string) :
  JS.toLowerCase f = JS.toLowerCase f' ->
  Menu.filteredGroups f = Menu.filteredGroups f'.
Proof.
  intros H. rewrite !filteredGroups_unfold.
  rewrite <- (all_space_toLowerCase f), <- (all_space_toLowerCase f'), H.
  reflexivity.
Qed.

Lemma filteredGroups_case_insensitive_witness :
  Menu.filteredGroups "Wnd" = Menu.filteredGroups "wND".
Proof. apply filteredGroups_case_insensitive. reflexivity. Defined.

(** ** The states the page can reach *)

Lemma select_cycle_range (h : Z) :
  existsb (fun o => match View.onCycleChange (View.value o) with
                    | Some h' => h' =? h
                    | None => false
                    end) View.cycleOptions = true ->
  0 <= h <= 23.
Proof.
  intros H. apply existsb_exists in H as (o & Hin & Ho).
  unfold View.cycleOptions in Hin. apply in_map_iff in Hin as (i & <- & Hi).
  cbn [View.value] in Ho. unfold View.onCycleChange in Ho.
  rewrite parseInt_numeral in Ho. apply Z.eqb_eq in Ho. subst i.
  change 24 with (Z.of_nat 24) in Hi. rewrite array_from_indices_consecutive in Hi.
  apply list_elem_of_In, elem_of_consecutive in Hi. lia.
Qed.

Lemma Forall_clearInterval (P : Playback.Timer -> Prop) (id : Z) (l : list Playback.Timer) :
  Forall P l -> Forall P (Playback.clearInterval id l).
Proof.
  unfold Playback.clearInterval. rewrite !Forall_forall.
  intros H t Ht. apply H. apply list_elem_of_In in Ht. apply filter_In in Ht as [Ht _].
  now apply list_elem_of_In.
Qed.

Lemma ui_invariant_runCleanup (s : Playback.State) :
  Laws.ui_invariant s -> Laws.ui_invariant (Playback.runCleanup s).
Proof.
  unfold Playback.runCleanup. destruct (Playback.effectCleanup s); [|auto].
  destruct (Playback.timerRef s) as [id|]; [|auto].
  destruct (id =? 0); [auto|].
  intros (Hc & Hf & Hp & Hs & Ht). unfold Laws.ui_invariant; cbn.
  repeat split; try assumption; try lia. now apply Forall_clearInterval.
Qed.

Lemma ui_invariant_runEffect (fresh : positive) (s : Playback.State) :
  Laws.ui_invariant s -> Laws.ui_invariant (Playback.runEffect fresh s).
Proof.
  intros (Hc & Hf & Hp & Hs & Ht). unfold Playback.runEffect, Laws.ui_invariant.
  destruct (Playback.playing s); cbn; repeat split; try assumption; try lia.
  apply Forall_app. split; [exact Ht|]. constructor; [exact Hs | constructor].
Qed.

(** An event the page can produce keeps the invariant. *)
Lemma ui_invariant_step (e : Playback.Event) (s s' : Playback.State) :
  Laws.ui_invariant s -> Laws.ui_event s e = true ->
  Playback.step e s = Some s' -> Laws.ui_invariant s'.
Proof.
  intros Hinv He. pose proof Hinv as (Hc & Hf & Hp & Hs & Ht).
  pose proof (max_hour_cases (Playback.cycleHour s)) as Hm.
  destruct e; cbn [Playback.step Laws.ui_event] in *.
  - (* Commit *)
    destruct (Playback.mounted s); cbn [negb]; [|now intros [= <-]].
    assert (Hrun : Laws.ui_invariant (Playback.runEffect fresh (Playback.runCleanup s)))
      by now apply ui_invariant_runEffect, ui_invariant_runCleanup.
    destruct (Playback.effectDeps s) as [d|]; [|now intros [= <-]].
    destruct (Playback.Deps_eqb d (Playback.currentDeps s)); now intros [= <-].
  - destruct (Playback.mounted s); intros [= <-]; exact Hinv.
  - (* SelectCycle *)
    apply select_cycle_range in He.
    destruct (Playback.mounted s); intros [= <-]; [|exact Hinv].
    unfold Laws.ui_invariant; cbn. auto.
  - discriminate He.
  - (* SelectParam *)
    apply existsb_exists in He as (k' & Hin & Hk). apply String.eqb_eq in Hk. subst k'.
    apply menu_keys_in_catalog in Hin.
    destruct (Playback.mounted s); intros [= <-]; [|exact Hinv].
    unfold Laws.ui_invariant; cbn. auto.
  - destruct (Playback.mounted s); intros [= <-]; exact Hinv.
  - (* SelectHour *)
    apply existsb_exists in He as (h' & Hin & Hh). apply Z.eqb_eq in Hh. subst h'.
    apply list_elem_of_In, elem_of_listHoursForCycle in Hin.
    destruct (Playback.mounted s); intros [= <-]; [|exact Hinv].
    unfold Laws.ui_invariant; cbn. repeat split; try assumption; lia.
  - (* PrevHour *)
    destruct (Playback.mounted s); intros [= <-]; [|exact Hinv].
    unfold Laws.ui_invariant, App.prevUpdater; cbn. repeat split; try assumption; lia.
  - (* NextHour *)
    destruct (Playback.mounted s); cbn [negb]; [|now intros [= <-]].
    change App.nextUpdater with App.tickUpdater. rewrite tickUpdater_closed_form.
    intros [= <-]. unfold Laws.ui_invariant; cbn.
    repeat split; try assumption; Z_cases.
  - (* Tick *)
    destruct (List.find _ _) as [t|]; [|now intros [= <-]].
    destruct (Playback.mounted s); [|now intros [= <-]].
    rewrite tickUpdater_closed_form. intros [= <-].
    pose proof (max_hour_cases (Playback.closedCycleHour t)).
    unfold Laws.ui_invariant; cbn. repeat split; try assumption; Z_cases.
  - (* Unmount *)
    destruct (Playback.mounted s); cbn [negb]; [|now intros [= <-]].
    intros [= <-]. apply ui_invariant_runCleanup in Hinv.
    destruct Hinv as (? & ? & ? & ? & ?). unfold Laws.ui_invariant; cbn. auto.
Qed.

Lemma ui_invariant_run (events : list Playback.Event) (s : Playback.State) :
  Laws.ui_invariant s -> Laws.ui_trace events s = true ->
  exists s', Playback.run events s = Some s' /\ Laws.ui_invariant s'.
Proof.
  revert s; induction events as [|e events IH]; intros s Hinv Htr; [now exists s|].
  cbn [Laws.ui_trace] in Htr. apply andb_true_iff in Htr as [He Htr].
  cbn [Playback.run]. destruct (Playback.step e s) as [s1|] eqn:Hstep; [|discriminate].
  cbn [mbind option_bind]. apply IH; [|exact Htr].
  now apply (ui_invariant_step e s).
Qed.

Lemma ui_invariant_initial (utcHour : Z) :
  0 <= utcHour <= 23 -> Laws.ui_invariant (Playback.initial utcHour).
Proof.
  intros H. unfold Laws.ui_invariant; cbn. repeat split; try lia.
  - do 0 right. left. reflexivity.
  - constructor.
Qed.

(** X14: started at a UTC hour in 0..23 and whatever the user does with the
    page (select a run, a parameter of the filtered menu or an hour of the
    grid, type a filter, play, pause, step) and whenever timers fire, the
    cycle hour stays in 0..23, the forecast hour in 0..48, the parameter a
    key of the catalog, and the period of playback stays 600 ms, as nothing
    changes it.  The forecast hour may exceed the valid hours of the current
    cycle: after hour 40 of run 00Z, selecting run 03Z leaves hour 40. *)
Theorem ui_keeps_state_valid (utcHour : Z) (events : list Playback.Event) :
  0 <= utcHour <= 23 ->
  Laws.ui_trace events (Playback.initial utcHour) = true ->
  (exists s, Playback.run events (Playback.initial utcHour) = Some s
     /\ 0 <= Playback.cycleHour s <= 23
     /\ 0 <= Playback.fhr s <= 48
     /\ In (Playback.activeParam s) App.catalog_keys
     /\ Playback.speedMs s = 600
     /\ Forall (fun t => Playback.delay t = 600) (Playback.intervals s))
  /\ (let evs := [ Playback.SelectHour 40; Playback.SelectCycle 3 ] in
      Laws.ui_trace evs (Playback.initial 0) = true
      /\ option_map Playback.fhr (Playback.run evs (Playback.initial 0)) = Some 40
      /\ Spec.max_hour 3 = 18).
Proof.
  intros Hh Htr. split; [|repeat split; reflexivity].
  destruct (ui_invariant_run events (Playback.initial utcHour)
              (ui_invariant_initial utcHour Hh) Htr) as (s & Hrun & Hinv).
  exists s. split; [exact Hrun | exact Hinv].
Qed.

Lemma ui_keeps_state_valid_witness :
  exists s,
    Playback.run [ Playback.Commit 1; Playback.TypeFilter "wnd";
                   Playback.SelectParam "10m_wnd"; Playback.SelectCycle 6;
                   Playback.SelectHour 30; Playback.TogglePlay; Playback.Commit 2;
                   Playback.Tick 2 ]
      (Playback.initial 5) = Some s
    /\ 0 <= Playback.cycleHour s <= 23
    /\ 0 <= Playback.fhr s <= 48
    /\ In (Playback.activeParam s) App.catalog_keys
    /\ Playback.speedMs s = 600
    /\ Forall (fun t => Playback.delay t = 600) (Playback.intervals s).
Proof.
  apply (proj1 (ui_keeps_state_valid 5
                  [ Playback.Commit 1; Playback.TypeFilter "wnd";
                    Playback.SelectParam "10m_wnd"; Playback.SelectCycle 6;
                    Playback.SelectHour 30; Playback.TogglePlay; Playback.Commit 2;
                    Playback.Tick 2 ]
                  ltac:(lia) ltac:(vm_compute; reflexivity))).
Defined.

(** The relay rebuilds the direct URL of a request whose strings are
    non-empty and lower-case. *)
Lemma remote_of_proxy_request (args : App.Args) :
  Spec.nonempty (default "hrrr" (App.model args))
  && Spec.all_lowercase (default "hrrr" (App.model args)) = true ->
  Spec.nonempty (default App.AREA (App.area args))
  && Spec.all_lowercase (default App.AREA (App.area args)) = true ->
  Spec.nonempty (App.param args) && Spec.all_lowercase (App.param args) = true ->
  Mag.remote (Mag.event_of_url (App.buildMagProxyUrl args)) = App.buildMagDirectUrl args.
Proof.
  intros [Hm1 Hm2]%andb_true_iff [Ha1 Ha2]%andb_true_iff [Hp1 Hp2]%andb_true_iff.
  apply nonempty_ne in Hm1, Ha1, Hp1.
  unfold Mag.remote, Mag.filename. rewrite fields_of_proxy_request.
  cbn [Mag.model Mag.area Mag.cycle Mag.fhr Mag.param Mag.size].
  rewrite !or_else_Some by assumption. rewrite !toLowerCase_fixed by assumption.
  unfold App.buildMagDirectUrl. rewrite buildMagDirectUrl_with_default.
  reflexivity.
Qed.

Lemma catalog_keys_plain :
  Forall (fun k => Spec.nonempty k && Spec.all_lowercase k = true) App.catalog_keys.
Proof. repeat constructor. Qed.

(** X15: in every state the page can reach, the URL the relay fetches for
    the image shown (the proxy URL of the state) is the direct URL the page
    displays beside it. *)
Theorem shown_image_is_direct_image
    (utcHour : Z) (events : list Playback.Event) (s : Playback.State) :
  0 <= utcHour <= 23 ->
  Laws.ui_trace events (Playback.initial utcHour) = true ->
  Playback.run events (Playback.initial utcHour) = Some s ->
  Mag.remote (Mag.event_of_url (View.imageUrl s)) = View.imageUrlDirect s.
Proof.
  intros Hh Htr Hrun.
  destruct (ui_invariant_run events (Playback.initial utcHour)
              (ui_invariant_initial utcHour Hh) Htr) as (s' & Hrun' & Hinv).
  rewrite Hrun in Hrun'. injection Hrun' as <-.
  destruct Hinv as (_ & _ & Hp & _).
  pose proof catalog_keys_plain as Hall. rewrite Forall_forall in Hall.
  apply list_elem_of_In, Hall in Hp.
  unfold View.imageUrl, View.imageUrlDirect.
  apply remote_of_proxy_request; [reflexivity | reflexivity | exact Hp].
Qed.

Lemma shown_image_is_direct_image_witness :
  Mag.remote
    (Mag.event_of_url
       (View.imageUrl
          (Playback.setFhr 4 (Playback.setActiveParam "vis" (Playback.initial 5)))))
  = "https://mag.ncep.noaa.gov/data/hrrr05/hrrr_conus_00400_vis.gif".
Proof.
  rewrite (shown_image_is_direct_image 5
             [ Playback.SelectParam "vis"; Playback.NextHour ]
             (Playback.setFhr 4 (Playback.setActiveParam "vis" (Playback.initial 5)))
             ltac:(lia) ltac:(vm_compute; reflexivity) ltac:(reflexivity)).
  reflexivity.
Defined.

(** ** Unmounting and pausing *)

Lemma run_app (a b : list Playback.Event) (s : Playback.State) :
  Playback.run (a ++ b) s = s' ← Playback.run a s; Playback.run b s'.
Proof.
  revert s; induction a as [|e a IH]; intros s; [reflexivity|].
  cbn [Playback.run app]. destruct (Playback.step e s) as [s1|]; [|reflexivity].
  cbn [mbind option_bind]. apply IH.
Qed.

Lemma timer_invariant_unmounted (s : Playback.State) :
  Spec.timer_invariant s -> Playback.mounted s = false -> Playback.intervals s = [].
Proof.
  unfold Spec.timer_invariant. destruct (Playback.effectCleanup s).
  - intros (t & d & _ & _ & _ & _ & _ & _ & _ & Hm). congruence.
  - now intros [H _].
Qed.

Lemma step_unmounted (e : Playback.Event) (s : Playback.State) :
  Playback.mounted s = false -> Playback.intervals s = [] -> Playback.step e s = Some s.
Proof.
  intros Hm Hi. destruct e; cbn [Playback.step]; rewrite ?Hm, ?Hi; reflexivity.
Qed.

Lemma run_unmounted (events : list Playback.Event) (s : Playback.State) :
  Playback.mounted s = false -> Playback.intervals s = [] -> Playback.run events s = Some s.
Proof.
  intros Hm Hi. induction events as [|e events IH]; [reflexivity|].
  cbn [Playback.run]. now rewrite step_unmounted.
Qed.

(** X16: when the component is unmounted, whatever happened before, no
    timer of it remains active, and nothing that happens afterwards (events
    still queued, ticks) changes its state. *)
Theorem unmount_is_final (utcHour : Z) (before after : list Playback.Event) :
  exists s,
    Playback.run (before ++ [Playback.Unmount]) (Playback.initial utcHour) = Some s
    /\ Playback.intervals s = []
    /\ Playback.mounted s = false
    /\ Playback.run (before ++ Playback.Unmount :: after) (Playback.initial utcHour)
       = Some s.
Proof.
  destruct (run_timer_invariant before (Playback.initial utcHour)
              (timer_invariant_initial utcHour)) as (s0 & Hrun & Hinv).
  assert (Hs : exists s, Playback.step Playback.Unmount s0 = Some s
                 /\ Playback.intervals s = [] /\ Playback.mounted s = false).
  { cbn [Playback.step]. destruct (Playback.mounted s0) eqn:Hm; cbn [negb].
    - eexists; split; [reflexivity|]. rewrite (runCleanup_clears s0 Hinv). split; reflexivity.
    - exists s0. split; [reflexivity|]. split; [|exact Hm].
      now apply timer_invariant_unmounted. }
  destruct Hs as (s & Hstep & Hi & Hm). exists s.
  rewrite !run_app, Hrun. cbn [mbind option_bind Playback.run]. rewrite Hstep.
  cbn [mbind option_bind]. repeat split; try assumption. now apply run_unmounted.
Qed.

Lemma run_ticks_idle (ids : list Z) (s : Playback.State) :
  Playback.intervals s = [] -> Playback.run (map Playback.Tick ids) s = Some s.
Proof.
  intros Hi. induction ids as [|id ids IH]; [reflexivity|].
  cbn [map Playback.run Playback.step]. rewrite Hi. cbn [List.find mbind option_bind].
  exact IH.
Qed.

(** X17: once a pause is committed no timer fires any more: in a state the
    component has reached with [playing] false, after the effects have run,
    any ticks, whatever their handles, leave the state as it is. *)
Theorem pause_stops_ticks
    (utcHour : Z) (events : list Playback.Event) (s : Playback.State)
    (fresh : positive) (ids : list Z) :
  Playback.run events (Playback.initial utcHour) = Some s ->
  Playback.playing s = false ->
  Playback.run (Playback.Commit fresh :: map Playback.Tick ids) s
  = Playback.step (Playback.Commit fresh) s
  /\ exists s', Playback.step (Playback.Commit fresh) s = Some s'
                /\ Playback.intervals s' = [].
Proof.
  intros Hrun Hp.
  destruct (run_timer_invariant events (Playback.initial utcHour)
              (timer_invariant_initial utcHour)) as (s0 & Hrun0 & Hinv).
  rewrite Hrun in Hrun0. injection Hrun0 as <-.
  destruct (step_timer_invariant (Playback.Commit fresh) s Hinv) as (s' & Hstep & Hinv').
  pose proof (commit_count fresh s s' Hinv Hstep) as Hlen.
  rewrite Hp, andb_false_r in Hlen.
  assert (Hi : Playback.intervals s' = []) by (now destruct (Playback.intervals s')).
  split; [|now exists s'].
  cbn [Playback.run]. rewrite Hstep. cbn [mbind option_bind]. now apply run_ticks_idle.
Qed.

Lemma pause_stops_ticks_witness :
  let s := Playback.setPlaying false
             (Playback.runEffect 2
                (Playback.setPlaying true (Playback.runEffect 1 (Playback.initial 5)))) in
  Playback.run (Playback.Commit 3 :: map Playback.Tick [2; 3; 2]) s
  = Playback.step (Playback.Commit 3) s.
Proof.
  intros s.
  apply (proj1 (pause_stops_ticks 5
                  [ Playback.Commit 1; Playback.TogglePlay; Playback.Commit 2;
                    Playback.TogglePlay ]
                  s 3 [2; 3; 2] ltac:(reflexivity) ltac:(reflexivity))).
Defined.
